(** * The quotation pipeline of tgBot-Logosphera: validator, merger, importer,
      orchestrator and two harvesters, embedded from the Python sources

    Python strings are sequences of Unicode code points, so a text is a
    [list N].  Whitespace ([str.isspace], [str.split], [str.strip]) is the
    closed set CPython uses and is written out.  The large Unicode tables
    (case mapping, decimal digits, word characters) are an interface,
    [Unicode]; everything is defined and proved over an arbitrary instance
    and evaluated at [py_tables], which covers Basic Latin and the Cyrillic
    block, the two alphabets the pipeline harvests. *)

From Stdlib Require Import NArith ZArith Lia String Ascii DecimalString.
From stdpp Require Import base tactics option list gmap sets.

Local Open Scope N_scope.

(** ** Texts *)

Abbreviation text := (list N).

(** A literal of the source, one code point per character (ASCII literals). *)
Fixpoint lit (s : string) : text :=
  match s with
  | EmptyString => []
  | String a s' => N_of_ascii a :: lit s'
  end.

(** [str.isspace] for one code point: the characters CPython's
    [_PyUnicode_IsWhitespace] accepts. *)
Definition is_space (c : N) : bool :=
  ((9 <=? c) && (c <=? 13)) || ((28 <=? c) && (c <=? 32))
  || (c =? 133) || (c =? 160) || (c =? 5760)
  || ((8192 <=? c) && (c <=? 8202))
  || (c =? 8232) || (c =? 8233) || (c =? 8239) || (c =? 8287) || (c =? 12288).

Fixpoint lstrip (s : text) : text :=
  match s with
  | c :: s' => if is_space c then lstrip s' else s
  | [] => []
  end.

Definition rstrip (s : text) : text := reverse (lstrip (reverse s)).

(** [s.strip()] *)
Definition strip (s : text) : text := rstrip (lstrip s).

(** [s.split()]: the maximal runs of non-whitespace, in order.  [cur] is the
    run being read, reversed. *)
Fixpoint split_go (cur : text) (s : text) : list text :=
  match s with
  | [] => match cur with [] => [] | _ => [reverse cur] end
  | c :: s' =>
      if is_space c
      then match cur with [] => split_go [] s' | _ => reverse cur :: split_go [] s' end
      else split_go (c :: cur) s'
  end.

Definition split (s : text) : list text := split_go [] s.

(** [sep.join(parts)] *)
Fixpoint join (sep : text) (parts : list text) : text :=
  match parts with
  | [] => []
  | [p] => p
  | p :: ps => p ++ sep ++ join sep ps
  end.

(** [' '.join(text.split())] *)
Definition normalize_ws (s : text) : text := join [32] (split s).

Definition text_eqb (a b : text) : bool := bool_decide (a = b).

(** [needle in hay] for strings *)
Fixpoint is_prefix (p s : text) : bool :=
  match p, s with
  | [], _ => true
  | a :: p', b :: s' => (a =? b) && is_prefix p' s'
  | _ :: _, [] => false
  end.

Fixpoint contains (needle hay : text) : bool :=
  is_prefix needle hay ||
  match hay with
  | [] => false
  | _ :: hay' => contains needle hay'
  end.

(** ** Unicode tables *)

Class Unicode := {
  (** simple case mappings of one code point, as [re.IGNORECASE] uses them *)
  uni_lower : N -> N;
  uni_upper : N -> N;
  (** [str.lower()] *)
  str_lower : text -> text;
  (** [\d]: decimal digits (category Nd) *)
  is_decimal : N -> bool;
  (** [\w]: alphanumerics and the underscore *)
  is_word : N -> bool;
  (** [c.isupper()] for a one-character string *)
  is_upper : N -> bool
}.

Definition in_range (lo hi c : N) : bool := (lo <=? c) && (c <=? hi).

(** The tables on Basic Latin and Cyrillic (U+0400 to U+045F). *)
Definition py_lower (c : N) : N :=
  if in_range 65 90 c then c + 32
  else if in_range 1040 1071 c then c + 32
  else if in_range 1024 1039 c then c + 80
  else c.

Definition py_upper (c : N) : N :=
  if in_range 97 122 c then c - 32
  else if in_range 1072 1103 c then c - 32
  else if in_range 1104 1119 c then c - 80
  else c.

#[export] Instance py_tables : Unicode := {|
  uni_lower := py_lower;
  uni_upper := py_upper;
  str_lower := map py_lower;
  is_decimal := in_range 48 57;
  is_word := fun c =>
    in_range 48 57 c || in_range 65 90 c || in_range 97 122 c || (c =? 95)
    || in_range 1024 1119 c;
  is_upper := fun c => in_range 65 90 c || in_range 1024 1071 c
|}.

(** ** Regular expressions, as far as the validator uses them *)

Inductive regex :=
| Set_ (ranges : list (N * N))     (* [..]: a class of ranges; a literal is a one-point range *)
| Dig                              (* \d *)
| Spc                              (* \s *)
| Dot                              (* . : anything but a newline *)
| Bnd                              (* \b *)
| Eps
| Cat (r1 r2 : regex)
| Alt (r1 r2 : regex)
| Star (r : regex).

Definition Plus (r : regex) : regex := Cat r (Star r).
Definition Opt (r : regex) : regex := Alt r Eps.

(** [r{n,}] *)
Fixpoint AtLeast (n : nat) (r : regex) : regex :=
  match n with
  | O => Star r
  | S n' => Cat r (AtLeast n' r)
  end.

(** a literal word, character by character *)
Fixpoint Word (w : text) : regex :=
  match w with
  | [] => Eps
  | c :: w' => Cat (Set_ [(c, c)]) (Word w')
  end.

Definition in_set (ranges : list (N * N)) (c : N) : bool :=
  existsb (fun r => in_range (fst r) (snd r) c) ranges.

Section Matcher.
Context `{Unicode}.

(** one character against a class; under IGNORECASE the character matches
    when its lower or its upper case is in the class *)
Definition set_match (ic : bool) (ranges : list (N * N)) (c : N) : bool :=
  if ic then in_set ranges c || in_set ranges (uni_lower c) || in_set ranges (uni_upper c)
  else in_set ranges c.

Definition word_opt (c : option N) : bool :=
  match c with Some x => is_word x | None => false end.

(** [accepts ic r prev s k]: some match of [r] at the head of [s] (the
    character before it is [prev]) leaves a rest that [k] accepts.
    Backtracking explores every split, so a search answers whether any
    match exists. *)
Fixpoint accepts (ic : bool) (r : regex) (prev : option N) (s : text)
    (k : option N -> text -> bool) {struct r} : bool :=
  let one (p : N -> bool) :=
    match s with
    | c :: s' => p c && k (Some c) s'
    | [] => false
    end in
  match r with
  | Set_ ranges => one (set_match ic ranges)
  | Dig => one is_decimal
  | Spc => one is_space
  | Dot => one (fun c => negb (c =? 10))
  | Bnd => xorb (word_opt prev) (word_opt (head s)) && k prev s
  | Eps => k prev s
  | Cat r1 r2 => accepts ic r1 prev s (fun p' s' => accepts ic r2 p' s' k)
  | Alt r1 r2 => accepts ic r1 prev s k || accepts ic r2 prev s k
  | Star r' =>
      (fix loop (fuel : nat) (p0 : option N) (s0 : text) {struct fuel} : bool :=
         k p0 s0 ||
         match fuel with
         | O => false
         | S fuel' =>
             accepts ic r' p0 s0
               (fun p' s' => (length s' <? length s0)%nat && loop fuel' p' s')
         end) (length s) prev s
  end.

Fixpoint search_from (ic : bool) (r : regex) (prev : option N) (s : text) : bool :=
  accepts ic r prev s (fun _ _ => true) ||
  match s with
  | [] => false
  | c :: s' => search_from ic r (Some c) s'
  end.

(** [re.search(r, s)] (with [re.IGNORECASE] when [ic]) finds a match *)
Definition re_search (ic : bool) (r : regex) (s : text) : bool :=
  search_from ic r None s.

(** [re.search(r'(.)\1{4,}', s)]: a character other than a newline
    followed by four or more copies of itself *)
Fixpoint search_repeat5 (s : text) : bool :=
  match s with
  | [] => false
  | c :: s' =>
      (negb (c =? 10) && bool_decide (take 4 s' = replicate 4 c))
      || search_repeat5 s'
  end.

(** [r'\bword\b'] *)
Definition Keyword (w : text) : regex := Cat Bnd (Cat (Word w) Bnd).

Definition upper_AZ : regex := Set_ [(65, 90)].
Definition lower_az : regex := Set_ [(97, 122)].
(** [[A-Z][a-z]+] *)
Definition Capitalized : regex := Cat upper_AZ (Plus lower_az).

(** [r'\b[IVXLCDM]{2,}\b'] *)
Definition roman_numerals : regex :=
  Cat Bnd (Cat (AtLeast 2 (Set_ [(73,73); (86,86); (88,88); (76,76); (67,67); (68,68); (77,77)])) Bnd).

(** [r'\b[A-Z][a-z]+\s+[A-Z][a-z]+'], for the copy's capitalized word *)
Definition two_capitalized (capitalized : regex) : regex :=
  Cat Bnd (Cat capitalized (Cat (Plus Spc) capitalized)).

Definition place_keywords : list text :=
  [ lit "street"; lit "avenue"; lit "road"; lit "drive";
    [1091; 1083; 1080; 1094; 1072];                          (* улица *)
    [1087; 1088; 1086; 1089; 1087; 1077; 1082; 1090];        (* проспект *)
    [1087; 1077; 1088; 1077; 1091; 1083; 1086; 1082];        (* переулок *)
    lit "moscow"; lit "london"; lit "paris" ].

Definition quote_marks : regex := Set_ [(34, 34); (171, 171); (187, 187)].

(** [r'[Q][A-Z][a-z]+.*[A-Z][a-z]+[Q]'] where [Q] is the class of the
    straight double quote and the two guillemets, likewise *)
Definition quoted_title (capitalized : regex) : regex :=
  Cat quote_marks (Cat capitalized (Cat (Star Dot) (Cat capitalized quote_marks))).

(** [r'http[s]?://|www\.|@'] *)
Definition url_or_email : regex :=
  Alt (Cat (Word (lit "http")) (Cat (Opt (Set_ [(115, 115)])) (Word (lit "://"))))
    (Alt (Word (lit "www.")) (Word (lit "@"))).

Definition month_names : list text :=
  [ lit "january"; lit "february"; lit "march"; lit "april";
    lit "may"; lit "june"; lit "july"; lit "august";
    lit "september"; lit "october"; lit "november"; lit "december";
    [1103; 1085; 1074; 1072; 1088; 1100];                    (* январь *)
    [1092; 1077; 1074; 1088; 1072; 1083; 1100];              (* февраль *)
    [1084; 1072; 1088; 1090];                                (* март *)
    [1072; 1087; 1088; 1077; 1083; 1100];                    (* апрель *)
    [1084; 1072; 1081];                                      (* май *)
    [1080; 1102; 1085; 1100];                                (* июнь *)
    [1080; 1102; 1083; 1100];                                (* июль *)
    [1072; 1074; 1075; 1091; 1089; 1090];                    (* август *)
    [1089; 1077; 1085; 1090; 1103; 1073; 1088; 1100];        (* сентябрь *)
    [1086; 1082; 1090; 1103; 1073; 1088; 1100];              (* октябрь *)
    [1085; 1086; 1103; 1073; 1088; 1100];                    (* ноябрь *)
    [1076; 1077; 1082; 1072; 1073; 1088; 1100] ].            (* декабрь *)

Definition theater_keywords : list text :=
  [ lit "act"; lit "scene"; lit "page"; lit "chapter";
    [1072; 1082; 1090];                                      (* акт *)
    [1089; 1094; 1077; 1085; 1072];                          (* сцена *)
    [1089; 1090; 1088; 1072; 1085; 1080; 1094; 1072];        (* страница *)
    [1075; 1083; 1072; 1074; 1072] ].                        (* глава *)

Definition any_keyword (ws : list text) (s : text) : bool :=
  existsb (fun w => re_search true (Keyword w) s) ws.

(** The checks after the length test, on the whitespace-normalized text;
    [true] means rejected.  The copies of the validator differ in the
    character classes of a capitalized word and in the keyword lists. *)
Definition content_rejects (capitalized : regex) (places months theater : list text)
    (t : text) : bool :=
  re_search false Dig t
  || re_search true roman_numerals t
  || (re_search false (two_capitalized capitalized) t
      && negb (match t with c :: _ => is_upper c | [] => false end))
  || any_keyword places t
  || re_search false (quoted_title capitalized) t
  || re_search true url_or_email t
  || any_keyword months t
  || any_keyword theater t
  || search_repeat5 t.

Definition rejected_by_content : text → bool :=
  content_rejects Capitalized place_keywords month_names theater_keywords.

(** [is_valid_quotation(text)] of import_to_postgres.py *)
Definition is_valid_quotation (t : text) : bool :=
  if bool_decide (t = []) || (length (strip t) <? 20)%nat then false
  else negb (rejected_by_content (normalize_ws t)).

(** The copy in harvest_citaty_net.py and harvest_wikiquote_ru.py:
    [[А-ЯЁ][а-яё]+] for a capitalized word and its own keyword lists. *)
Definition Capitalized_ru : regex :=
  Cat (Set_ [(1040, 1071); (1025, 1025)]) (Plus (Set_ [(1072, 1103); (1105, 1105)])).

Definition place_keywords_ru : list text :=
  [ [1091; 1083; 1080; 1094; 1072];                          (* улица *)
    [1087; 1088; 1086; 1089; 1087; 1077; 1082; 1090];        (* проспект *)
    [1087; 1077; 1088; 1077; 1091; 1083; 1086; 1082];        (* переулок *)
    [1084; 1086; 1089; 1082; 1074; 1072];                    (* москва *)
    [1083; 1086; 1085; 1076; 1086; 1085];                    (* лондон *)
    [1087; 1072; 1088; 1080; 1078];                          (* париж *)
    lit "street"; lit "avenue"; lit "road" ].

Definition month_names_ru : list text :=
  drop 12 month_names ++ take 4 month_names.

Definition theater_keywords_ru : list text :=
  drop 4 theater_keywords ++ take 4 theater_keywords.

Definition is_valid_quotation_ru (t : text) : bool :=
  if bool_decide (t = []) || (length (strip t) <? 20)%nat then false
  else negb (content_rejects Capitalized_ru place_keywords_ru month_names_ru
               theater_keywords_ru (normalize_ws t)).

End Matcher.

(** ** Records and files *)

(** A field of a JSON object as the code reads it with [dict.get]: the key
    is missing, holds [null], or holds a string.  Fields holding numbers,
    booleans, arrays or objects are outside the interchange format and are
    not modelled. *)
Inductive jfield :=
| JAbsent
| JNull
| JStr (s : text).

Record quote := {
  q_text : jfield;
  q_author : jfield;
  q_source : jfield;
  q_lang : jfield
}.

Inductive file_content :=
| Unreadable                      (* [open] or [json.load] raises *)
| Json (qs : list quote)          (* a JSON array of objects *)
| Plain (lines : list text).      (* a text file; [json.load] raises on it *)

(** The working directory: its files in the order the operating system lists
    them, and whether files can be created in it. *)
Record filesystem := {
  files : list (text * file_content);
  writable : bool
}.

Definition lookup_file (name : text) (fs : filesystem) : option file_content :=
  snd <$> find (fun f => text_eqb (fst f) name) (files fs).

(** [open(name, 'w')] followed by the dump: the file is replaced in place or
    added at the end; [None] when the directory is not writable. *)
Fixpoint replace_file (name : text) (c : file_content)
    (l : list (text * file_content)) : list (text * file_content) :=
  match l with
  | [] => [(name, c)]
  | f :: l' => if text_eqb (fst f) name then (name, c) :: l' else f :: replace_file name c l'
  end.

Definition write_file (name : text) (c : file_content) (fs : filesystem) : option filesystem :=
  if writable fs then Some {| files := replace_file name c (files fs); writable := true |}
  else None.

(** [fnmatch] for patterns made of literal characters, [*] and [?]. *)
Fixpoint wildcard (p : text) (s : text) {struct p} : bool :=
  match p with
  | [] => match s with [] => true | _ => false end
  | c :: p' =>
      if c =? 42 then
        (fix star (s0 : text) : bool :=
           wildcard p' s0 || match s0 with [] => false | _ :: s1 => star s1 end) s
      else
        match s with
        | [] => false
        | d :: s' => ((c =? 63) || (c =? d)) && wildcard p' s'
        end
  end.

(** [glob.glob(pattern)] in the working directory: a leading dot is matched
    only by a pattern that starts with one. *)
Definition glob (pattern : text) (fs : filesystem) : list (text * file_content) :=
  filter (fun f => wildcard pattern (fst f) = true
                   ∧ (head (fst f) = Some 46 → head pattern = Some 46)) (files fs).

(** ** merge_quotes.py *)

Record merge_state := {
  all_quotes : list quote;
  seen_texts : gset text
}.

Section Merge.
Context `{Unicode}.

(** [q.get('text', '')]; [None] when the value is [null], on which
    [.strip()] raises AttributeError *)
Definition get_text (q : quote) : option text :=
  match q_text q with
  | JAbsent => Some []
  | JStr s => Some s
  | JNull => None
  end.

(** [q.get('text', '').strip().lower()] *)
Definition merge_key (q : quote) : option text :=
  (fun t => str_lower (strip t)) <$> get_text q.

(** The body of [for q in quotes]; [None] when it raises. *)
Definition merge_step (st : merge_state) (q : quote) : option merge_state :=
  key ← merge_key q;
  Some (if bool_decide (key ≠ []) && bool_decide (key ∉ seen_texts st)
        then {| all_quotes := all_quotes st ++ [q];
                seen_texts := {[ key ]} ∪ seen_texts st |}
        else st).

(** The loop over one file.  An exception leaves the loop; the enclosing
    [except Exception] keeps what was merged so far and goes on with the
    next file. *)
Fixpoint merge_records (qs : list quote) (st : merge_state) : merge_state :=
  match qs with
  | [] => st
  | q :: qs' =>
      match merge_step st q with
      | Some st' => merge_records qs' st'
      | None => st
      end
  end.

Definition merge_file (st : merge_state) (f : file_content) : merge_state :=
  match f with
  | Json qs => merge_records qs st
  | Unreadable | Plain _ => st
  end.

Definition text_or_empty (f : jfield) : text :=
  match f with JStr s => s | _ => [] end.

(** One line of the TXT rendering.  Retained records hold a string text. *)
Definition render_line (q : quote) : text :=
  match q_author q with
  | JStr (c :: a) => text_or_empty (q_text q) ++ [32; 8212; 32] ++ c :: a
  | _ => text_or_empty (q_text q)
  end.

Definition ALL_QUOTES_json : text := lit "ALL_QUOTES.json".
Definition ALL_QUOTES_txt : text := lit "ALL_QUOTES.txt".

(** The files [merge_quotes] reads, in reading order. *)
Definition merge_inputs (pattern : text) (exclude_files : list text)
    (fs : filesystem) : list file_content :=
  snd <$> filter (fun f => fst f ∉ exclude_files) (glob pattern fs).

Definition merged (inputs : list file_content) : list quote :=
  all_quotes (foldl merge_file {| all_quotes := []; seen_texts := ∅ |} inputs).

(** [merge_quotes(input_pattern, exclude_files, output_json, output_txt)]:
    the list returned and the directory afterwards; [None] when writing
    an output file raises. *)
Definition merge_quotes (pattern : text) (exclude_files : option (list text))
    (output_json output_txt : text) (fs : filesystem)
    : option (list quote * filesystem) :=
  let exclude := default [output_json; ALL_QUOTES_json] exclude_files in
  let out := merged (merge_inputs pattern exclude fs) in
  match out with
  | [] => Some (out, fs)
  | _ =>
      fs1 ← write_file output_json (Json out) fs;
      fs2 ← write_file output_txt (Plain (render_line <$> out)) fs1;
      Some (out, fs2)
  end.

(** The records the loops reach: of each readable file, those before the
    first one on which the loop body raises. *)
Fixpoint reached (qs : list quote) : list quote :=
  match qs with
  | [] => []
  | q :: qs' => match get_text q with Some _ => q :: reached qs' | None => [] end
  end.

Definition reached_file (f : file_content) : list quote :=
  match f with Json qs => reached qs | _ => [] end.

(** The key under which the code compares two reached records. *)
Definition code_key (q : quote) : text :=
  str_lower (strip (text_or_empty (q_text q))).

(** The key the specification names: whitespace-collapsed, case-folded
    text together with the language tag. *)
Definition spec_key (q : quote) : text * jfield :=
  (str_lower (normalize_ws (text_or_empty (q_text q))), q_lang q).

End Merge.

(** ** import_to_postgres.py *)

(** A row of [quotations].  The columns the server fills in by itself ([id],
    [created_at]) are left out. *)
Record row := {
  text_original : text;
  language_original : text;
  text_translated : option text;
  language_translated : option text;
  author : option text;
  source_url : option text;
  tags : list text;
  is_validated : bool
}.

(** The store behind [DB_URL]: whether the variable is set, whether the
    server accepts connections, and the committed rows of [quotations]. *)
Record database := {
  db_url_set : bool;
  reachable : bool;
  table : list row
}.

(** An open psycopg2 connection (autocommit off): the committed rows and the
    rows as the open transaction sees them. *)
Record connection := {
  committed : list row;
  current : list row
}.

Definition commit (c : connection) : connection :=
  {| committed := current c; current := current c |}.

Definition rollback (c : connection) : connection :=
  {| committed := committed c; current := committed c |}.

(** [get_db_connection()]; [None] when it raises (DB_URL not set, or the
    server refuses the connection). *)
Definition get_db_connection (db : database) : option connection :=
  if negb (db_url_set db) then None
  else if negb (reachable db) then None
  else Some {| committed := table db; current := table db |}.

(** A query parameter: [None] is SQL NULL. *)
Abbreviation sqlval := (option text).

(** psycopg2 refuses to adapt a string that holds a NUL character or a lone
    surrogate. *)
Definition adaptable (v : sqlval) : bool :=
  match v with
  | None => true
  | Some s => forallb (fun c => negb (c =? 0) && negb (in_range 55296 57343 c)) s
  end.

(** Storing into a [VARCHAR(n)] column: an over-long value is an error unless
    the excess is all spaces, in which case it is cut to [n] characters. *)
Definition varchar (n : nat) (v : sqlval) : option sqlval :=
  match v with
  | None => Some None
  | Some s =>
      if (length s <=? n)%nat then Some (Some s)
      else if forallb (N.eqb 32) (drop n s) then Some (Some (take n s))
      else None
  end.

Definition same_key (t l : text) (r : row) : bool :=
  text_eqb (text_original r) t && text_eqb (language_original r) l.

(** [SELECT id FROM quotations WHERE text_original = %s AND
    language_original = %s] and [fetchone()]: whether a row was found;
    [None] when the statement raises.  A comparison with NULL selects
    nothing. *)
Definition select_existing (t : text) (lang : sqlval) (c : connection) : option bool :=
  if adaptable (Some t) && adaptable lang then
    Some (match lang with
          | Some l => existsb (same_key t l) (current c)
          | None => false
          end)
  else None.

(** [INSERT INTO quotations (text_original, language_original, author,
    source_url, tags) VALUES (...)]; [None] when the statement raises: a
    parameter that cannot be adapted, NULL in the NOT NULL column, a value
    too long for its column, or a row with the same
    [(text_original, language_original)] (the UNIQUE constraint). *)
Definition insert_quotation (t : text) (lang author source : sqlval)
    (tgs : list text) (c : connection) : option connection :=
  if adaptable (Some t) && adaptable lang && adaptable author && adaptable source
       && forallb (fun g => adaptable (Some g)) tgs
  then
    l ← varchar 10 lang ≫= id;
    a ← varchar 255 author;
    s ← varchar 500 source;
    if existsb (same_key t l) (current c) then None
    else Some {| committed := committed c;
                 current := current c ++
                   [{| text_original := t; language_original := l;
                       text_translated := None; language_translated := None;
                       author := a; source_url := s; tags := tgs;
                       is_validated := true |}] |}
  else None.

Record import_stats := {
  loaded : nat;
  saved : nat;
  skipped : nat;
  errors : nat
}.

Definition no_stats : import_stats :=
  {| loaded := 0; saved := 0; skipped := 0; errors := 0 |}.

(** What one pass through the body of [for quote in quotes] comes to. *)
Inductive outcome :=
| Raised                               (* an exception reached [except Exception] *)
| Skipped                              (* one of the three [continue]s *)
| Inserted (c : connection).           (* the INSERT went through *)

Section Importer.
Context `{Unicode}.

(** [quote.get('author')] *)
Definition get_author (q : quote) : sqlval :=
  match q_author q with JStr s => Some s | _ => None end.

(** [quote.get('source', '')] *)
Definition get_source (q : quote) : sqlval :=
  match q_source q with JAbsent => Some [] | JNull => None | JStr s => Some s end.

(** [quote.get('lang', 'en')] *)
Definition get_lang (q : quote) : sqlval :=
  match q_lang q with JAbsent => Some (lit "en") | JNull => None | JStr s => Some s end.

(** The [try] block of the loop body, up to the INSERT. *)
Definition import_body (c : connection) (q : quote) : outcome :=
  match get_text q with
  | None => Raised                                  (* [None.strip()] *)
  | Some t0 =>
      let t := strip t0 in
      let author := get_author q in
      let source := get_source q in
      let lang := get_lang q in
      if bool_decide (t = []) then Skipped
      else if negb (is_valid_quotation t) then Skipped
      else
        match select_existing t lang c with
        | None => Raised
        | Some true => Skipped
        | Some false =>
            match insert_quotation t lang author source [lit "general"] c with
            | None => Raised
            | Some c' => Inserted c'
            end
        end
  end.

(** One iteration, with the counters and the commit after every hundredth
    row saved; an exception counts an error and rolls the open transaction
    back. *)
Definition import_quote (st : import_stats * connection) (q : quote)
    : import_stats * connection :=
  let '(s, c) := st in
  match import_body c q with
  | Skipped =>
      ({| loaded := loaded s; saved := saved s; skipped := S (skipped s);
          errors := errors s |}, c)
  | Inserted c' =>
      let s' := {| loaded := loaded s; saved := S (saved s); skipped := skipped s;
                   errors := errors s |} in
      (s', if (saved s' mod 100 =? 0)%nat then commit c' else c')
  | Raised =>
      ({| loaded := loaded s; saved := saved s; skipped := skipped s;
          errors := S (errors s) |}, rollback c)
  end.

(** The part of [import_to_postgres] after the corpus is loaded and the
    connection is open. *)
Definition import_quotes (clear_existing : bool) (quotes : list quote)
    (c0 : connection) : import_stats * connection :=
  let c1 := if clear_existing then commit {| committed := committed c0; current := [] |}
            else c0 in
  let s1 := {| loaded := length quotes; saved := 0; skipped := 0; errors := 0 |} in
  let '(s, c) := foldl import_quote (s1, c1) quotes in
  (s, commit c).

(** [import_to_postgres(input_file, clear_existing)]: the statistics
    returned and the store afterwards.  The function catches everything
    itself. *)
Definition import_to_postgres (input_file : text) (clear_existing : bool)
    (fs : filesystem) (db : database) : import_stats * database :=
  match lookup_file input_file fs with
  | Some (Json quotes) =>
      match get_db_connection db with
      | Some c0 =>
          let '(s, c) := import_quotes clear_existing quotes c0 in
          (s, {| db_url_set := db_url_set db; reachable := reachable db;
                 table := committed c |})
      | None =>
          ({| loaded := length quotes; saved := 0; skipped := 0; errors := 0 |}, db)
      end
  | Some Unreadable | Some (Plain _) => (no_stats, db)   (* [except Exception] *)
  | None => (no_stats, db)                               (* [except FileNotFoundError] *)
  end.

(** The key of the UNIQUE constraint. *)
Definition row_key (r : row) : text * text :=
  (text_original r, language_original r).

End Importer.

(** ** harvest_pipeline.py *)

(** How [subprocess.run(..., timeout=...)] ends. *)
Inductive proc_result :=
| Exited (returncode : Z) (stdout stderr : text)
| TimeoutExpired
| OtherException (msg : text).

(** A harvest script found by [find_harvest_scripts]: its path and what
    running it with a time limit (in seconds) does to the working directory. *)
Record script := {
  script_name : text;
  script_run : Z → filesystem → proc_result * filesystem
}.

(** An entry of [stats['harvest']['errors']]. *)
Record error_info := {
  ei_script : text;
  ei_type : text;
  ei_error : option text;
  ei_errors : list text
}.

Record harvest_stats := {
  h_total : nat;
  h_success : nat;
  h_failed : nat;
  h_skipped : nat;
  h_total_quotes : Z;
  h_errors : list error_info
}.

Record pipeline_stats := {
  st_harvest : harvest_stats;
  st_merge_input_files : nat;
  st_merge_output_quotes : nat;
  st_import : import_stats
}.

(** The messages of the orchestrator's log that mark its control flow. *)
Inductive log_entry :=
| Running (name : text)               (* info: Running {script_name}... *)
| CompletedOk (name : text)           (* info: {script_name} completed successfully *)
| AcceptableError (name : text)       (* warning: failed with acceptable error ... Skipping. *)
| FailedWithError (name : text)       (* error: {script_name} failed with error *)
| TimedOut (name : text)              (* error: {script_name} timed out after 1 hour *)
| FailedWithException (name : text)   (* error: {script_name} failed with exception *)
| SkippingHarvest                     (* info: Skipping harvest stage (--skip-harvest) *)
| Stage1                              (* info: STAGE 1: Harvesting quotes from sources *)
| NoScriptsFound                      (* warning: No harvest scripts found! *)
| NoHarvestSucceeded                  (* warning: No harvest scripts succeeded. Continuing with merge/import anyway... *)
| SkippingMerge                       (* info: Skipping merge stage (--skip-merge) *)
| Stage2                              (* info: STAGE 2: Merging quotes from all sources *)
| MergeRaised                         (* error: Merge stage failed: {e} *)
| MergeStageFailed                    (* error: Merge stage failed. Stopping pipeline. *)
| SkippingImport                      (* info: Skipping import stage (--skip-import) *)
| Stage3                              (* info: STAGE 3: Importing quotes to PostgreSQL *)
| CorpusNotFound                      (* error: ALL_QUOTES.json not found. Run merge stage first. *)
| ImportStageFailed                   (* error: Import stage failed. *)
| PipelineCompleted                   (* info: Pipeline completed successfully! *)
| StatisticsShown.                    (* print_db_statistics() *)



(** The flags of [HarvestPipeline.__init__]. *)
Record pipeline := {
  skip_harvest : bool;
  skip_merge : bool;
  skip_import : bool;
  clear_db : bool;
  stats_only : bool
}.

(** What a run threads through its stages. *)
Record state := {
  fs : filesystem;
  db : database;
  stats : pipeline_stats;
  log : list log_entry
}.

Definition initial_stats : pipeline_stats :=
  {| st_harvest := {| h_total := 0; h_success := 0; h_failed := 0; h_skipped := 0;
                      h_total_quotes := 0; h_errors := [] |};
     st_merge_input_files := 0;
     st_merge_output_quotes := 0;
     st_import := no_stats |}.

(** The state a run starts from. *)
Definition start (dir : filesystem) (store : database) : state :=
  {| fs := dir; db := store; stats := initial_stats; log := [] |}.

Definition logged (e : log_entry) (s : state) : state :=
  {| fs := fs s; db := db s; stats := stats s; log := log s ++ [e] |}.

Definition with_harvest (h : harvest_stats) (s : state) : state :=
  {| fs := fs s; db := db s;
     stats := {| st_harvest := h;
                 st_merge_input_files := st_merge_input_files (stats s);
                 st_merge_output_quotes := st_merge_output_quotes (stats s);
                 st_import := st_import (stats s) |};
     log := log s |}.

(** [s.split('\n')] *)
Fixpoint split_lines_go (cur : text) (s : text) : list text :=
  match s with
  | [] => [reverse cur]
  | c :: s' => if c =? 10 then reverse cur :: split_lines_go [] s'
               else split_lines_go (c :: cur) s'
  end.

Definition split_lines (s : text) : list text := split_lines_go [] s.

Section Pipeline.
Context `{Unicode}.

(** [extract_quotes_count]: the number the script printed in one of its
    'Saved N quotes' lines, or -1.  It only feeds the report. *)
Variable extract_quotes_count : text → Z.

Definition acceptable_errors : list text :=
  [ lit "not accessible"; lit "Connection refused"; lit "ConnectionError";
    lit "Connection timeout"; lit "Max retries exceeded";
    lit "No connection could be made"; lit "actively refused";
    lit "is down or blocked"; lit "rate limit"; lit "403"; lit "404";
    lit "No quotes found"; lit "Site structure changed" ].

Definition is_harvest_error_acceptable (error_output : text) : bool :=
  let error_lower := str_lower error_output in
  existsb (fun err => contains (str_lower err) error_lower) acceptable_errors.

Definition extract_errors (output : text) : list text :=
  take 10
    (strip <$>
     filter (fun line =>
               (contains (lit "error") (str_lower line) = true
                ∨ contains (lit "warning") (str_lower line) = true)
               ∧ is_harvest_error_acceptable line = false)
            (split_lines output)).

(** the time limit handed to [subprocess.run] *)
Definition script_timeout : Z := 3600.

(** [run_harvest_script(script_path)]: the tuple (success, message,
    quotes count, errors), the directory afterwards and the lines logged. *)
Definition run_harvest_script (sc : script) (dir : filesystem)
    : (bool * text * Z * list text) * filesystem * list log_entry :=
  let name := script_name sc in
  let '(r, dir') := script_run sc script_timeout dir in
  match r with
  | Exited returncode stdout stderr =>
      let full_output := stdout ++ stderr in
      let quotes_count := extract_quotes_count full_output in
      let errs := extract_errors full_output in
      if (returncode =? 0)%Z then
        ((true, lit "Success", quotes_count, errs), dir', [Running name; CompletedOk name])
      else if is_harvest_error_acceptable full_output then
        ((false, lit "Acceptable error (site unavailable)", 0%Z, errs), dir',
         [Running name; AcceptableError name])
      else
        ((false, lit "Error: " ++ take 200 full_output, 0%Z, errs), dir',
         [Running name; FailedWithError name])
  | TimeoutExpired =>
      ((false, lit "Timeout", 0%Z, []), dir', [Running name; TimedOut name])
  | OtherException msg =>
      ((false, lit "Exception: " ++ msg, 0%Z, []), dir',
       [Running name; FailedWithException name])
  end.

(** The body of [for script in scripts] in [run_harvest_stage]. *)
Definition harvest_one (s : state) (sc : script) : state :=
  let '((success, message, quotes_count, errs), dir', lines) :=
    run_harvest_script sc (fs s) in
  let h := st_harvest (stats s) in
  let h' :=
    if success then
      {| h_total := h_total h; h_success := S (h_success h);
         h_failed := h_failed h; h_skipped := h_skipped h;
         h_total_quotes := if (0 <=? quotes_count)%Z
                           then (h_total_quotes h + quotes_count)%Z
                           else h_total_quotes h;
         h_errors := match errs with
                     | [] => h_errors h
                     | _ => h_errors h ++
                            [{| ei_script := script_name sc; ei_type := lit "warnings";
                                ei_error := None; ei_errors := errs |}]
                     end |}
    else if contains (lit "Acceptable") message then
      {| h_total := h_total h; h_success := h_success h;
         h_failed := h_failed h; h_skipped := S (h_skipped h);
         h_total_quotes := h_total_quotes h; h_errors := h_errors h |}
    else
      {| h_total := h_total h; h_success := h_success h;
         h_failed := S (h_failed h); h_skipped := h_skipped h;
         h_total_quotes := h_total_quotes h;
         h_errors := h_errors h ++
                     [{| ei_script := script_name sc; ei_type := lit "error";
                         ei_error := Some message; ei_errors := errs |}] |} in
  {| fs := dir'; db := db s;
     stats := {| st_harvest := h';
                 st_merge_input_files := st_merge_input_files (stats s);
                 st_merge_output_quotes := st_merge_output_quotes (stats s);
                 st_import := st_import (stats s) |};
     log := log s ++ lines |}.

Definition set_total (n : nat) (h : harvest_stats) : harvest_stats :=
  {| h_total := n; h_success := h_success h; h_failed := h_failed h;
     h_skipped := h_skipped h; h_total_quotes := h_total_quotes h;
     h_errors := h_errors h |}.

(** [run_harvest_stage()] *)
Definition run_harvest_stage (p : pipeline) (scripts : list script) (s : state)
    : bool * state :=
  if skip_harvest p then (true, logged SkippingHarvest s)
  else
    let s1 := with_harvest (set_total (length scripts) (st_harvest (stats s)))
                (logged Stage1 s) in
    match scripts with
    | [] => (false, logged NoScriptsFound s1)
    | _ =>
        let s2 := foldl harvest_one s1 scripts in
        (bool_decide (0 < h_success (st_harvest (stats s2)))%nat, s2)
    end.

Definition merge_exclude : list text :=
  [lit "ALL_QUOTES.json"; lit "ALL_QUOTES.txt"; lit "harvest_pipeline.log"].

(** [run_merge_stage()] *)
Definition run_merge_stage (p : pipeline) (s : state) : bool * state :=
  if skip_merge p then (true, logged SkippingMerge s)
  else
    let s1 := logged Stage2 s in
    match merge_quotes (lit "*.json") (Some merge_exclude)
            ALL_QUOTES_json ALL_QUOTES_txt (fs s1) with
    | Some (quotes, dir') =>
        (bool_decide (0 < length quotes)%nat,
         {| fs := dir'; db := db s1;
            stats := {| st_harvest := st_harvest (stats s1);
                        st_merge_input_files := st_merge_input_files (stats s1);
                        st_merge_output_quotes := length quotes;
                        st_import := st_import (stats s1) |};
            log := log s1 |})
    | None => (false, logged MergeRaised s1)
    end.

(** [run_import_stage()] *)
Definition run_import_stage (p : pipeline) (s : state) : bool * state :=
  if skip_import p then (true, logged SkippingImport s)
  else
    let s1 := logged Stage3 s in
    match lookup_file ALL_QUOTES_json (fs s1) with
    | None => (false, logged CorpusNotFound s1)
    | Some _ =>
        let '(st, db') := import_to_postgres ALL_QUOTES_json (clear_db p) (fs s1) (db s1) in
        (bool_decide (0 < saved st)%nat || bool_decide (0 < skipped st)%nat,
         {| fs := fs s1; db := db';
            stats := {| st_harvest := st_harvest (stats s1);
                        st_merge_input_files := st_merge_input_files (stats s1);
                        st_merge_output_quotes := st_merge_output_quotes (stats s1);
                        st_import := st |};
            log := log s1 |})
    end.

(** The first step of [run()]: the harvest stage and the warning that
    follows it when no script succeeded. *)
Definition after_harvest (p : pipeline) (scripts : list script) (s : state) : state :=
  let '(harvest_success, s1) := run_harvest_stage p scripts s in
  if negb harvest_success && negb (skip_harvest p)
  then logged NoHarvestSucceeded s1 else s1.

(** [HarvestPipeline.run()] *)
Definition run (p : pipeline) (scripts : list script) (s : state) : bool * state :=
  if stats_only p then (true, logged StatisticsShown s)
  else
    let s1 := after_harvest p scripts s in
    let '(merge_success, s2) := run_merge_stage p s1 in
    if negb merge_success then (false, logged MergeStageFailed s2)
    else
      let '(import_success, s3) := run_import_stage p s2 in
      if negb import_success then (false, logged ImportStageFailed s3)
      else (true, logged PipelineCompleted s3).

(** [main()] after the flags are parsed: the process exit code and the
    final state. *)
Definition main (p : pipeline) (scripts : list script) (dir : filesystem)
    (store : database) : Z * state :=
  let '(success, s) := run p scripts (start dir store) in
  (if success then 0%Z else 1%Z, s).

End Pipeline.

(** ** The harvesters: harvest_citaty_net.py and harvest_wikiquote_ru.py *)

(** How [requests.get] ends.  [page] is what the source-specific extraction
    (BeautifulSoup and [clean_text]) reads off a response body. *)
Inductive http_result (page : Type) :=
| SSLError                                 (* requests.exceptions.SSLError *)
| RequestError                             (* another RequestException: refused, timed out, ... *)
| Response (status : Z) (body : page).

Arguments SSLError {page}.
Arguments RequestError {page}.
Arguments Response {page} status body.

(** The network: what the [n]-th request of a run gets for a URL, with or
    without certificate verification. *)
Abbreviation network page := (nat → text → bool → http_result page).

(** The lines of a harvester's log that mark its control flow. *)
Inductive harvest_log :=
| NoQuotesOnPage (page_no : Z)         (* warning: No quotes found on page {page} *)
| ErrorLoadingAuthor (a : text)        (* error: Error loading author '{author}': {e} *)
| RateLimited (a : text)               (* warning: 403 Forbidden for {author}. ... Waiting 30 seconds... *)
| StillRateLimited (a : text)          (* error: Skipping {author} - still rate limited. *)
| ErrorRetrying (a : text)             (* error: Error retrying {author}: {e} *)
| SavedQuotes (n : nat) (file : text). (* info: Saved {n} quotes to {output_file} *)

(** What a call of a harvester comes to: the list it returns ([None] when
    the call raises), the working directory afterwards, its log and the
    number of requests it made. *)
Record harvest_run := {
  returned : option (list quote);
  dir_after : filesystem;
  run_log : list harvest_log;
  requests_made : nat
}.

(** The decimal digits of a number, as [f'{page}'] prints them. *)
Definition decimal (n : Z) : text :=
  lit (NilZero.string_of_int (Z.to_int n)).

(** [response.raise_for_status()] raises on 4xx and 5xx. *)
Definition is_http_error (status : Z) : bool :=
  (400 <=? status)%Z && (status <? 600)%Z.

(** [re.search(r'[а-яёА-ЯЁ]', text)] *)
Definition cyrillic_letter : regex :=
  Set_ [(1072, 1103); (1105, 1105); (1040, 1071); (1025, 1025)].

Section Harvesters.
Context `{Unicode} {page : Type}.

(** [requests.get(url, verify=True)], and once more without verification
    when that raises SSLError: the result and the requests counted. *)
Definition get_with_fallback (net : network page) (n : nat) (url : text)
    : http_result page * nat :=
  match net n url true with
  | SSLError => (net (S n) url false, S (S n))
  | r => (r, S n)
  end.

(** The end of both harvesters: the file is written only when quotes were
    collected. *)
Definition save_and_return (quotes : list quote) (output_file : text)
    (dir : filesystem) (lg : list harvest_log) (n : nat) : harvest_run :=
  match quotes with
  | [] => {| returned := Some []; dir_after := dir; run_log := lg; requests_made := n |}
  | _ =>
      match write_file output_file (Json quotes) dir with
      | Some dir' =>
          {| returned := Some quotes; dir_after := dir';
             run_log := lg ++ [SavedQuotes (length quotes) output_file];
             requests_made := n |}
      | None =>
          {| returned := None; dir_after := dir; run_log := lg; requests_made := n |}
      end
  end.

End Harvesters.

Module CitatyNet.

Definition BASE_URL : text := lit "https://ru.citaty.net".

(** An element found on a page: its cleaned text and the cleaned text of
    the author element that follows it, if there is one. *)
Record element := {
  el_text : text;
  el_author : option text
}.

(** The elements the three [find_all] attempts settle on. *)
Abbreviation page := (list element).

Section Harvest.
Context `{Unicode}.

Definition url_patterns (page_no : Z) : list text :=
  [ BASE_URL ++ lit "/tsitaty/?page=" ++ decimal page_no;
    BASE_URL ++ lit "/tsitaty/page/" ++ decimal page_no ++ lit "/";
    BASE_URL ++ lit "/?page=" ++ decimal page_no ].

(** [for url in url_patterns]: the elements of the first variant that
    answers with some, or [None] when [success] stays [False]. *)
Fixpoint try_urls (net : network page) (n : nat) (urls : list text)
    : option page * nat :=
  match urls with
  | [] => (None, n)
  | url :: rest =>
      let '(r, n') := get_with_fallback net n url in
      match r with
      | Response status body =>
          if (status =? 404)%Z then try_urls net n' rest
          else if is_http_error status then try_urls net n' rest
          else match body with
               | [] => try_urls net n' rest
               | _ => (Some body, n')
               end
      | SSLError | RequestError => try_urls net n' rest
      end
  end.

(** The quotes one page adds. *)
Definition page_quotes (elements : page) : list quote :=
  omap (fun e =>
          if negb (re_search false cyrillic_letter (el_text e)) then None
          else if (20 <=? length (el_text e))%nat && is_valid_quotation_ru (el_text e)
          then Some {| q_text := JStr (el_text e);
                       q_author := match el_author e with
                                   | Some a => JStr a
                                   | None => JNull
                                   end;
                       q_source := JStr (lit "citaty_net");
                       q_lang := JStr (lit "ru") |}
          else None)
       elements.

(** [for page in range(1, max_pages + 1)], with its [break]. *)
Fixpoint pages_loop (net : network page) (pages : list Z) (n : nat)
    (quotes : list quote) (lg : list harvest_log)
    : list quote * list harvest_log * nat :=
  match pages with
  | [] => (quotes, lg, n)
  | p :: rest =>
      match try_urls net n (url_patterns p) with
      | (None, n') => (quotes, lg ++ [NoQuotesOnPage p], n')
      | (Some elements, n') =>
          pages_loop net rest n' (quotes ++ page_quotes elements) lg
      end
  end.

(** [range(1, max_pages + 1)] *)
Definition page_numbers (max_pages : Z) : list Z :=
  (fun i => Z.of_nat (S i)) <$> seq 0 (Z.to_nat max_pages).

(** [harvest_citaty_net(max_pages, output_file)] *)
Definition harvest_citaty_net (net : network page) (max_pages : Z)
    (output_file : text) (dir : filesystem) : harvest_run :=
  let '(quotes, lg, n) := pages_loop net (page_numbers max_pages) 0 [] [] in
  save_and_return quotes output_file dir lg n.

End Harvest.

End CitatyNet.

Module WikiquoteRu.

Definition BASE_URL : text := lit "https://ru.wikiquote.org/wiki".

(** What is read off an author's page: the cleaned texts of the [li]
    elements and of the elements whose class names a quotation. *)
Record page := {
  quote_elements : list text;
  quote_divs : list text
}.

Definition default_authors : list text :=
  [
    (* Лев Толстой *)
    [1051; 1077; 1074; 32; 1058; 1086; 1083; 1089; 1090; 1086; 1081];
    (* Фёдор Достоевский *)
    [1060; 1105; 1076; 1086; 1088; 32; 1044; 1086; 1089; 1090; 1086; 1077;
     1074; 1089; 1082; 1080; 1081];
    (* Антон Чехов *)
    [1040; 1085; 1090; 1086; 1085; 32; 1063; 1077; 1093; 1086; 1074];
    (* Александр Пушкин *)
    [1040; 1083; 1077; 1082; 1089; 1072; 1085; 1076; 1088; 32; 1055; 1091;
     1096; 1082; 1080; 1085];
    (* Иван Тургенев *)
    [1048; 1074; 1072; 1085; 32; 1058; 1091; 1088; 1075; 1077; 1085; 1077;
     1074];
    (* Николай Гоголь *)
    [1053; 1080; 1082; 1086; 1083; 1072; 1081; 32; 1043; 1086; 1075; 1086;
     1083; 1100];
    (* Михаил Лермонтов *)
    [1052; 1080; 1093; 1072; 1080; 1083; 32; 1051; 1077; 1088; 1084; 1086;
     1085; 1090; 1086; 1074];
    (* Александр Блок *)
    [1040; 1083; 1077; 1082; 1089; 1072; 1085; 1076; 1088; 32; 1041; 1083;
     1086; 1082];
    (* Сергей Есенин *)
    [1057; 1077; 1088; 1075; 1077; 1081; 32; 1045; 1089; 1077; 1085; 1080;
     1085];
    (* Владимир Маяковский *)
    [1042; 1083; 1072; 1076; 1080; 1084; 1080; 1088; 32; 1052; 1072; 1103;
     1082; 1086; 1074; 1089; 1082; 1080; 1081];
    (* Анна Ахматова *)
    [1040; 1085; 1085; 1072; 32; 1040; 1093; 1084; 1072; 1090; 1086; 1074;
     1072];
    (* Марина Цветаева *)
    [1052; 1072; 1088; 1080; 1085; 1072; 32; 1062; 1074; 1077; 1090; 1072;
     1077; 1074; 1072];
    (* Борис Пастернак *)
    [1041; 1086; 1088; 1080; 1089; 32; 1055; 1072; 1089; 1090; 1077; 1088;
     1085; 1072; 1082];
    (* Иосиф Бродский *)
    [1048; 1086; 1089; 1080; 1092; 32; 1041; 1088; 1086; 1076; 1089; 1082;
     1080; 1081];
    (* Александр Солженицын *)
    [1040; 1083; 1077; 1082; 1089; 1072; 1085; 1076; 1088; 32; 1057; 1086;
     1083; 1078; 1077; 1085; 1080; 1094; 1099; 1085];
    (* Михаил Булгаков *)
    [1052; 1080; 1093; 1072; 1080; 1083; 32; 1041; 1091; 1083; 1075; 1072;
     1082; 1086; 1074];
    (* Иван Бунин *)
    [1048; 1074; 1072; 1085; 32; 1041; 1091; 1085; 1080; 1085];
    (* Максим Горький *)
    [1052; 1072; 1082; 1089; 1080; 1084; 32; 1043; 1086; 1088; 1100; 1082;
     1080; 1081];
    (* Владимир Набоков *)
    [1042; 1083; 1072; 1076; 1080; 1084; 1080; 1088; 32; 1053; 1072; 1073;
     1086; 1082; 1086; 1074];
    (* Александр Грибоедов *)
    [1040; 1083; 1077; 1082; 1089; 1072; 1085; 1076; 1088; 32; 1043; 1088;
     1080; 1073; 1086; 1077; 1076; 1086; 1074];
    (* Аристотель *)
    [1040; 1088; 1080; 1089; 1090; 1086; 1090; 1077; 1083; 1100];
    (* Платон *)
    [1055; 1083; 1072; 1090; 1086; 1085];
    (* Сократ *)
    [1057; 1086; 1082; 1088; 1072; 1090];
    (* Конфуций *)
    [1050; 1086; 1085; 1092; 1091; 1094; 1080; 1081];
    (* Фридрих Ницше *)
    [1060; 1088; 1080; 1076; 1088; 1080; 1093; 32; 1053; 1080; 1094; 1096;
     1077];
    (* Иммануил Кант *)
    [1048; 1084; 1084; 1072; 1085; 1091; 1080; 1083; 32; 1050; 1072; 1085;
     1090];
    (* Карл Маркс *)
    [1050; 1072; 1088; 1083; 32; 1052; 1072; 1088; 1082; 1089]    ].

Section Harvest.
Context `{Unicode}.

(** [author.replace(' ', '_')] *)
Definition underscored (a : text) : text :=
  (fun c => if c =? 32 then 95 else c) <$> a.

Definition author_url (a : text) : text :=
  BASE_URL ++ lit "/" ++ underscored a.

(** [r'^(edit|править|ссылки|links|see also|категории|categories)'],
    searched with IGNORECASE: a match at the start of the text *)
Definition navigation : regex :=
  Alt (Word (lit "edit"))
 (Alt (Word [1087; 1088; 1072; 1074; 1080; 1090; 1100])
 (Alt (Word [1089; 1089; 1099; 1083; 1082; 1080])
 (Alt (Word (lit "links"))
 (Alt (Word (lit "see also"))
 (Alt (Word [1082; 1072; 1090; 1077; 1075; 1086; 1088; 1080; 1080])
      (Word (lit "categories"))))))).

Definition is_navigation (t : text) : bool :=
  accepts true navigation None t (fun _ _ => true).

Definition quote_of (a t : text) : quote :=
  {| q_text := JStr t; q_author := JStr a;
     q_source := JStr (lit "wikiquote_ru"); q_lang := JStr (lit "ru") |}.

(** The quotes one author's page adds. *)
Definition page_quotes (a : text) (body : page) : list quote :=
  omap (fun t =>
          if is_navigation t then None
          else if (length t <? 40)%nat then None
          else if negb (re_search false cyrillic_letter t) then None
          else if is_valid_quotation_ru t then Some (quote_of a t) else None)
       (quote_elements body)
  ++
  omap (fun t =>
          if (40 <=? length t)%nat then
            if negb (re_search false cyrillic_letter t) then None
            else if is_valid_quotation_ru t then Some (quote_of a t) else None
          else None)
       (quote_divs body).

(** The body of [for author in authors]. *)
Definition harvest_author (net : network page)
    (st : list quote * list harvest_log * nat) (a : text)
    : list quote * list harvest_log * nat :=
  let '(quotes, lg, n) := st in
  let url := author_url a in
  let '(r, n1) := get_with_fallback net n url in
  let finish (status : Z) (body : page) (lg' : list harvest_log) (n' : nat) :=
    if is_http_error status then (quotes, lg' ++ [ErrorLoadingAuthor a], n')
    else (quotes ++ page_quotes a body, lg', n') in
  match r with
  | SSLError | RequestError => (quotes, lg ++ [ErrorLoadingAuthor a], n1)
  | Response status body =>
      if (status =? 404)%Z then (quotes, lg, n1)
      else if (status =? 403)%Z then
        match net n1 url false with
        | Response status2 body2 =>
            if (status2 =? 403)%Z
            then (quotes, lg ++ [RateLimited a; StillRateLimited a], S n1)
            else finish status2 body2 (lg ++ [RateLimited a]) (S n1)
        | SSLError | RequestError =>
            (quotes, lg ++ [RateLimited a; ErrorRetrying a], S n1)
        end
      else finish status body lg n1
  end.

(** [harvest_wikiquote_ru(authors, output_file)] *)
Definition harvest_wikiquote_ru (net : network page) (authors : option (list text))
    (output_file : text) (dir : filesystem) : harvest_run :=
  let '(quotes, lg, n) :=
    foldl (harvest_author net) ([], [], 0%nat) (default default_authors authors) in
  save_and_return quotes output_file dir lg n.

End Harvest.

End WikiquoteRu.

(** ** Views used in the statements *)


(** A response that leaves a harvester without a page: an exception of
    [requests], or an HTTP error status. *)
Definition down {page : Type} (r : http_result page) : bool :=
  match r with
  | Response status _ => is_http_error status
  | SSLError | RequestError => true
  end.

(** ** What it means for a stage to fail *)

Section StageFailure.
Context `{Unicode}.

(** The merge stage ran and produced no corpus: [merge_quotes] raised, or
    it returned an empty list. *)
Definition merge_failed (p : pipeline) (s : state) : Prop :=
  skip_merge p = false
  ∧ ∀ quotes dir',
      merge_quotes (lit "*.json") (Some merge_exclude) ALL_QUOTES_json ALL_QUOTES_txt
        (fs s) = Some (quotes, dir') → quotes = [].

(** The import stage ran and persisted nothing: the corpus file does not
    exist, or the importer neither saved nor skipped a record (which
    includes the store that cannot be reached). *)
Definition import_failed (p : pipeline) (s : state) : Prop :=
  skip_import p = false
  ∧ (lookup_file ALL_QUOTES_json (fs s) = None
     ∨ let st := (import_to_postgres ALL_QUOTES_json (clear_db p) (fs s) (db s)).1 in
       saved st = 0%nat ∧ skipped st = 0%nat).

End StageFailure.

(** ** Sample data *)

Module Samples.

Definition record (t : text) (src : string) (l : jfield) : quote :=
  {| q_text := JStr t; q_author := JNull; q_source := JStr (lit src); q_lang := l |}.

(** the two records of the specification's merge scenario, in two languages *)
Definition heals_en : quote := record (lit "Time heals all wounds.") "A" (JStr (lit "en")).
Definition heals_ru : quote := record (lit "time heals all wounds.") "B" (JStr (lit "ru")).
(** the first record again, with two spaces between two words *)
Definition heals_spaced : quote :=
  record (lit "Time heals  all wounds.") "B" (JStr (lit "en")).

(** 'Be', twenty spaces, 'kind.' *)
Definition padded : text := lit "Be" ++ replicate 20 32 ++ lit "kind.".

Definition ice_text : text :=
  lit "Break the ice means to start a conversation and ease tension.".

(** the specification's valid record, without a language field *)
Definition ice : quote := record ice_text "s1" JAbsent.

(** a valid record whose author is 256 characters long *)
Definition long_author : quote :=
  {| q_text := JStr (lit "Fortune favours the bold and the patient.");
     q_author := JStr (replicate 256 97);
     q_source := JStr (lit "s1");
     q_lang := JStr (lit "en") |}.

Definition empty_dir : filesystem := {| files := []; writable := true |}.

Definition corpus_dir (qs : list quote) : filesystem :=
  {| files := [(ALL_QUOTES_json, Json qs)]; writable := true |}.

Definition empty_store : database :=
  {| db_url_set := true; reachable := true; table := [] |}.

(** a store whose connection string is missing from the environment *)
Definition no_db_url : database :=
  {| db_url_set := false; reachable := true; table := [] |}.

Definition ice_row : row :=
  {| text_original := ice_text; language_original := lit "en";
     text_translated := None; language_translated := None;
     author := None; source_url := Some (lit "s1");
     tags := [lit "general"]; is_validated := true |}.

(** a harvester that exits with 0 after writing one record to a.json *)
Definition script_ok : script :=
  {| script_name := lit "harvest_a.py";
     script_run := fun _ d =>
       (Exited 0 (lit "Saved 1 quotes to a.json") [],
        {| files := replace_file (lit "a.json") (Json [ice]) (files d);
           writable := writable d |}) |}.

(** a harvester that runs into the time limit having collected nothing *)
Definition script_timeout_empty : script :=
  {| script_name := lit "harvest_b.py";
     script_run := fun _ d => (TimeoutExpired, d) |}.

(** a harvester that runs into the time limit after writing a partial file *)
Definition script_timeout_partial : script :=
  {| script_name := lit "harvest_c.py";
     script_run := fun _ d =>
       (TimeoutExpired,
        {| files := replace_file (lit "c.json") (Json [ice]) (files d);
           writable := writable d |}) |}.

Definition all_stages : pipeline :=
  {| skip_harvest := false; skip_merge := false; skip_import := false;
     clear_db := false; stats_only := false |}.

Definition without_import : pipeline :=
  {| skip_harvest := false; skip_merge := false; skip_import := true;
     clear_db := false; stats_only := false |}.

(** the count is not read off the output *)
Definition no_count : text → Z := fun _ => (-1)%Z.

(** every request is refused *)
Definition refused {page : Type} : network page := fun _ _ _ => RequestError.

Definition plato : text := [1055; 1083; 1072; 1090; 1086; 1085].
Definition kant : text :=
  [1048; 1084; 1084; 1072; 1085; 1091; 1080; 1083; 32; 1050; 1072; 1085; 1090].

End Samples.

(** A word of [split]: not empty and free of whitespace. *)
Definition is_word_part (p : text) : Prop :=
  p ≠ [] ∧ Forall (fun c => is_space c = false) p.

(** The scripts the harvest stage has classified so far. *)
Definition outcomes (h : harvest_stats) : nat :=
  (h_success h + h_failed h + h_skipped h)%nat.
(** A row as the importer makes it from a record of the corpus. *)
Definition imported_from `{Unicode} (qs : list quote) (r : row) : Prop :=
  ∃ q t0,
    q ∈ qs ∧ get_text q = Some t0
    ∧ text_original r = strip t0
    ∧ text_original r ≠ []
    ∧ is_valid_quotation (text_original r) = true
    ∧ varchar 10 (get_lang q) = Some (Some (language_original r))
    ∧ varchar 255 (get_author q) = Some (author r)
    ∧ varchar 500 (get_source q) = Some (source_url r)
    ∧ text_translated r = None ∧ language_translated r = None
    ∧ tags r = [lit "general"] ∧ is_validated r = true.

(** The length of a column value, NULL counting as empty. *)
Definition sql_length (v : sqlval) : nat :=
  match v with Some s => length s | None => 0%nat end.

(** The records an import run has dealt with. *)
Definition handled (s : import_stats) : nat :=
  (saved s + skipped s + errors s)%nat.

(** Every row is one the table began with or one made from the corpus. *)
Definition rows_from `{Unicode} (T0 : list row) (qs : list quote) (c : connection) : Prop :=
  ∀ r, r ∈ committed c ∨ r ∈ current c → r ∈ T0 ∨ imported_from qs r.

(** Without clearing, the rows the table began with stay where they are. *)
Definition keeps (T0 : list row) (c : connection) : Prop :=
  T0 `prefix_of` committed c ∧ committed c `prefix_of` current c.
(** The rows of the open transaction that are not committed yet. *)
Definition uncommitted (c : connection) : nat :=
  (length (current c) - length (committed c))%nat.

(** What holds between the counters and the two views of the table during
    a run that started from [n0] rows. *)
Definition growth (n0 : nat) (st : import_stats * connection) : Prop :=
  (length (committed st.2) ≤ length (current st.2)
   ∧ uncommitted st.2 ≤ saved st.1 mod 100
   ∧ length (current st.2) ≤ n0 + saved st.1
   ∧ n0 + saved st.1 ≤ length (current st.2) + 99 * errors st.1)%nat.

(** * Properties *)

(** ** The validator *)

Lemma lstrip_nil_or (t : text) :
  lstrip t = [] ∨ ∃ c, c ∈ t ∧ is_space c = false.
Proof.
  induction t as [|c t IH]; [by left|]. simpl.
  destruct (is_space c) eqn:Hc.
  - destruct IH as [IH|(d & Hd & Hs)]; [by left|].
    right. exists d. split; [by apply elem_of_cons; right|done].
  - right. exists c. split; [by apply elem_of_cons; left|done].
Qed.

Lemma split_go_nonempty (cur s : text) :
  cur ≠ [] ∨ (∃ c, c ∈ s ∧ is_space c = false) →
  ∃ p ps, split_go cur s = p :: ps ∧ p ≠ [].
Proof.
  revert cur. induction s as [|c s IH]; intros cur Hne; simpl.
  - destruct Hne as [Hcur|(c & Hc & _)]; [|by apply elem_of_nil in Hc].
    destruct cur as [|x cur]; [done|].
    exists (reverse (x :: cur)), []. split; [done|].
    intros Hrev. apply (f_equal length) in Hrev. rewrite length_reverse in Hrev. done.
  - destruct (is_space c) eqn:Hc.
    + destruct cur as [|x cur].
      * apply IH. right. destruct Hne as [?|(d & Hd & Hs)]; [done|].
        apply elem_of_cons in Hd as [->|Hd]; [congruence|eauto].
      * exists (reverse (x :: cur)), (split_go [] s). split; [done|].
        intros Hrev. apply (f_equal length) in Hrev. rewrite length_reverse in Hrev. done.
    + apply IH. by left.
Qed.

(** After the length test the normalized text is not empty, so [text[0]] in
    the proper-name rule is always in range. *)
Lemma normalize_ws_nonempty (t : text) :
  strip t ≠ [] → normalize_ws t ≠ [].
Proof.
  intros Hs.
  destruct (lstrip_nil_or t) as [Hl|Hc].
  { destruct Hs. unfold strip. by rewrite Hl. }
  destruct (split_go_nonempty [] t (or_intror Hc)) as (p & ps & Hsplit & Hp).
  unfold normalize_ws, split. rewrite Hsplit.
  destruct p as [|x p]; [done|]. by destruct ps.
Qed.


(** ** The merger *)

Section MergeFacts.
Context `{Unicode}.

Lemma merge_key_reached (q : quote) (t : text) :
  get_text q = Some t → merge_key q = Some (code_key q).
Proof.
  unfold merge_key, code_key, get_text.
  destruct (q_text q); intros; simplify_eq/=; done.
Qed.

(** What holds between the records read so far, [P], and the merge state. *)
Record merge_inv (P : list quote) (st : merge_state) : Prop := {
  inv_sublist : all_quotes st `sublist_of` P;
  inv_nodup : NoDup (code_key <$> all_quotes st);
  inv_seen : ∀ k, k ∈ seen_texts st ↔ k ∈ code_key <$> all_quotes st;
  inv_nonempty : ∀ q, q ∈ all_quotes st → code_key q ≠ [];
  inv_first : ∀ l1 q l2, P = l1 ++ q :: l2 → code_key q ≠ [] →
                code_key q ∉ code_key <$> l1 → q ∈ all_quotes st
}.

Lemma merge_inv_init : merge_inv [] {| all_quotes := []; seen_texts := ∅ |}.
Proof.
  split; simpl.
  - constructor.
  - constructor.
  - intros k. set_solver.
  - intros q Hq. by apply elem_of_nil in Hq.
  - intros [|] ? ? ?; discriminate.
Qed.

Lemma snoc_split {A} (P l1 l2 : list A) (q x : A) :
  P ++ [q] = l1 ++ x :: l2 →
  (l2 = [] ∧ l1 = P ∧ x = q) ∨ (∃ l2', l2 = l2' ++ [q] ∧ P = l1 ++ x :: l2').
Proof.
  destruct l2 as [|y l2 _] using rev_ind; intros Heq.
  - left. apply app_inj_tail in Heq as [-> ->]. done.
  - right. exists l2.
    change (l1 ++ x :: l2 ++ [y]) with (l1 ++ (x :: l2) ++ [y]) in Heq.
    rewrite app_assoc in Heq. apply app_inj_tail in Heq as [-> ->]. done.
Qed.

Lemma merge_step_inv (P : list quote) (st st' : merge_state) (q : quote) :
  merge_inv P st → merge_step st q = Some st' → merge_inv (P ++ [q]) st'.
Proof.
  intros [Hsub Hnd Hseen Hne Hfirst] Hstep.
  unfold merge_step in Hstep.
  destruct (merge_key q) as [key|] eqn:Hkey; simplify_eq/=.
  assert (key = code_key q) as ->.
  { unfold merge_key in Hkey. destruct (get_text q) eqn:Hg; simplify_eq/=.
    pose proof (merge_key_reached q _ Hg) as Hk.
    unfold merge_key in Hk. rewrite Hg in Hk. by simplify_eq/=. }
  assert (Hkeys : ∀ q', q' ∈ all_quotes st → code_key q' ∈ code_key <$> P).
  { intros q' Hq'. apply list_elem_of_fmap. exists q'. split; [done|].
    eapply elem_of_sublist; eauto. }
  case_bool_decide as Hnil; simpl.
  2:{ (* empty key: the record is dropped *)
    split; auto.
    - by apply sublist_inserts_r.
    - intros l1 x l2 Heq Hx Hfresh.
      apply snoc_split in Heq as [(-> & -> & ->)|(l2' & -> & ->)]; [|eauto].
      by destruct Hnil. }
  case_bool_decide as Hnew; simpl.
  2:{ (* key seen before: the record is dropped *)
    split; auto.
    - by apply sublist_inserts_r.
    - intros l1 x l2 Heq Hx Hfresh.
      apply snoc_split in Heq as [(-> & -> & ->)|(l2' & -> & ->)]; [|eauto].
      destruct Hfresh.
      apply Hseen, list_elem_of_fmap in Hnew as (q' & -> & Hq'). by apply Hkeys. }
  (* a new key: the record is appended *)
  split; simpl.
  - by apply sublist_app.
  - rewrite fmap_app. apply NoDup_app. split_and!; [done| |apply NoDup_singleton].
    intros k Hk Hk'. apply list_elem_of_singleton in Hk'. subst k.
    by apply Hnew, Hseen.
  - intros k. rewrite fmap_app, elem_of_app, elem_of_union, elem_of_singleton, Hseen.
    simpl. rewrite list_elem_of_singleton. tauto.
  - intros q' [Hq'| ->%list_elem_of_singleton]%elem_of_app; auto.
  - intros l1 x l2 Heq Hx Hfresh. apply elem_of_app.
    apply snoc_split in Heq as [(-> & -> & ->)|(l2' & -> & ->)].
    + right. by apply list_elem_of_singleton.
    + left. eauto.
Qed.

Lemma merge_records_inv (qs : list quote) (P : list quote) (st : merge_state) :
  merge_inv P st → merge_inv (P ++ reached qs) (merge_records qs st).
Proof.
  revert P st. induction qs as [|q qs IH]; intros P st Hinv; simpl.
  - by rewrite app_nil_r.
  - unfold merge_step, merge_key.
    destruct (get_text q) as [t|] eqn:Hg; simpl.
    + rewrite cons_middle, app_assoc. apply IH.
      eapply merge_step_inv; [done|].
      unfold merge_step, merge_key. by rewrite Hg.
    + by rewrite app_nil_r.
Qed.

Lemma merge_file_inv (f : file_content) (P : list quote) (st : merge_state) :
  merge_inv P st → merge_inv (P ++ reached_file f) (merge_file st f).
Proof.
  destruct f; simpl; rewrite ?app_nil_r; auto using merge_records_inv.
Qed.

Lemma merge_files_inv (inputs : list file_content) (P : list quote) (st : merge_state) :
  merge_inv P st →
  merge_inv (P ++ concat (reached_file <$> inputs)) (foldl merge_file st inputs).
Proof.
  revert P st. induction inputs as [|f inputs IH]; intros P st Hinv; simpl.
  - by rewrite app_nil_r.
  - rewrite app_assoc. by apply IH, merge_file_inv.
Qed.

End MergeFacts.

Section MergeClaims.
Context `{Unicode}.

Lemma first_with_key (P : list quote) (q : quote) :
  q ∈ P →
  ∃ l1 q' l2, P = l1 ++ q' :: l2 ∧ code_key q' = code_key q
              ∧ code_key q ∉ code_key <$> l1.
Proof.
  induction P as [|x P IH]; intros Hin.
  - by apply elem_of_nil in Hin.
  - destruct (decide (code_key x = code_key q)) as [Heq|Hne].
    + exists [], x, P. split_and!; [done|done|]. simpl. apply not_elem_of_nil.
    + apply elem_of_cons in Hin as [->|Hin]; [done|].
      destruct (IH Hin) as (l1 & q' & l2 & -> & Hk & Hfresh).
      exists (x :: l1), q', l2. split_and!; [done|done|].
      rewrite fmap_cons, not_elem_of_cons. split; [congruence|done].
Qed.

(** C1, as amended.  Merge deduplicates on the stripped, lower-cased text
    alone.  With [P] the records the loops reach, in reading order, the
    list returned keeps records of [P] unchanged and in order; no two
    retained records have the same key and no retained key is empty; a
    record whose key is not empty and occurs in no earlier record is
    retained; and every record with a non-empty key is represented by a
    retained record with that key.  Neither the language tag nor the
    whitespace inside the text takes part. *)
Theorem merge_dedup_on_text_key (inputs : list file_content) :
  let P := concat (reached_file <$> inputs) in
  let out := merged inputs in
  out `sublist_of` P
  ∧ NoDup (code_key <$> out)
  ∧ (∀ q, q ∈ out → code_key q ≠ [])
  ∧ (∀ l1 q l2, P = l1 ++ q :: l2 → code_key q ≠ [] →
       code_key q ∉ code_key <$> l1 → q ∈ out)
  ∧ (∀ q, q ∈ P → code_key q ≠ [] → ∃ q', q' ∈ out ∧ code_key q' = code_key q).
Proof.
  intros P out.
  destruct (merge_files_inv inputs [] _ merge_inv_init)
    as [Hsub Hnd Hseen Hne Hfirst].
  simpl in *. fold P in Hsub, Hfirst. fold out in Hsub, Hnd, Hne, Hfirst.
  split_and!; try done.
  intros q Hq Hk.
  destruct (first_with_key P q Hq) as (l1 & q' & l2 & HP & Hkq & Hfresh).
  exists q'. split; [|done].
  apply (Hfirst l1 q' l2 HP); rewrite Hkq; done.
Qed.

Lemma merge_quotes_returns (pattern : text) (exclude : option (list text))
    (oj ot : text) (dir dir' : filesystem) (out : list quote) :
  merge_quotes pattern exclude oj ot dir = Some (out, dir') →
  out = merged (merge_inputs pattern (default [oj; ALL_QUOTES_json] exclude) dir).
Proof.
  unfold merge_quotes. intros Hm.
  destruct (merged _) as [|q qs] eqn:Hout; simplify_option_eq; done.
Qed.

End MergeClaims.

(** C1, the claim as stated fails in both directions.  Two records whose
    language tags differ (so that their keys in the specification's sense
    differ) are merged into one; two records with the same key in the
    specification's sense, differing in the whitespace inside the text, are
    both retained. *)
Lemma merge_key_not_text_and_language :
  (spec_key Samples.heals_en ≠ spec_key Samples.heals_ru
   ∧ merged [Json [Samples.heals_en; Samples.heals_ru]] = [Samples.heals_en])
  ∧ (spec_key Samples.heals_en = spec_key Samples.heals_spaced
     ∧ merged [Json [Samples.heals_en; Samples.heals_spaced]]
       = [Samples.heals_en; Samples.heals_spaced]).
Proof.
  split_and!.
  - vm_compute. discriminate.
  - vm_compute. reflexivity.
  - vm_compute. reflexivity.
  - vm_compute. reflexivity.
Qed.

(** ** The validator, the claims *)

(** C4, as amended.  A text whose length after stripping leading and
    trailing whitespace is below 20 is rejected, whatever the Unicode
    tables. *)
Theorem is_valid_rejects_short_stripped `{Unicode} (t : text) :
  (length (strip t) < 20)%nat → is_valid_quotation t = false.
Proof.
  intros Hlen. unfold is_valid_quotation.
  apply Nat.ltb_lt in Hlen. rewrite Hlen.
  by rewrite orb_true_r.
Qed.

Lemma is_valid_rejects_short_stripped_witness :
  (length (strip (lit "  Carpe diem.  ")) < 20)%nat
  ∧ is_valid_quotation (lit "  Carpe diem.  ") = false.
Proof.
  split.
  - vm_compute. lia.
  - apply is_valid_rejects_short_stripped. vm_compute. lia.
Defined.

(** C4, the claim as stated fails: this text is 8 characters long once its
    whitespace is collapsed, and the validator accepts it, because the
    length is tested before the whitespace is collapsed. *)
Lemma short_after_normalization_accepted :
  (length (normalize_ws Samples.padded) < 20)%nat
  ∧ is_valid_quotation Samples.padded = true.
Proof.
  split.
  - vm_compute. lia.
  - vm_compute. reflexivity.
Qed.

(** ** The importer *)

Section ImportFacts.
Context `{Unicode}.

Definition keys_unique (rows : list row) : Prop := NoDup (row_key <$> rows).

Lemma same_key_spec (t l : text) (r : row) :
  same_key t l r = true ↔ row_key r = (t, l).
Proof.
  unfold same_key, text_eqb, row_key.
  rewrite andb_true_iff, !bool_decide_eq_true. split.
  - intros [-> ->]. done.
  - intros [= -> ->]. done.
Qed.

Lemma existsb_same_key (t l : text) (rows : list row) :
  existsb (same_key t l) rows = true ↔ (t, l) ∈ row_key <$> rows.
Proof.
  rewrite existsb_exists, list_elem_of_fmap. split.
  - intros (r & Hin & Hk). exists r. apply same_key_spec in Hk.
    split; [done|]. by apply list_elem_of_In.
  - intros (r & Hk & Hin). exists r. split; [by apply list_elem_of_In|].
    by apply same_key_spec.
Qed.

(** Both views of the table satisfy the UNIQUE constraint. *)
Definition conn_unique (c : connection) : Prop :=
  keys_unique (committed c) ∧ keys_unique (current c).

Lemma insert_quotation_spec (t : text) (lang a s : sqlval) (tgs : list text)
    (c c' : connection) :
  insert_quotation t lang a s tgs c = Some c' →
  ∃ r, c' = {| committed := committed c; current := current c ++ [r] |}
       ∧ text_original r = t
       ∧ varchar 10 lang = Some (Some (language_original r))
       ∧ varchar 255 a = Some (author r)
       ∧ varchar 500 s = Some (source_url r)
       ∧ tags r = tgs
       ∧ row_key r ∉ row_key <$> current c.
Proof.
  unfold insert_quotation. intros Hins.
  destruct (_ && _ && _ && _ && _); [|done].
  destruct (varchar 10 lang) as [[l|]|] eqn:Hl; simpl in Hins; try done.
  destruct (varchar 255 a) as [a'|] eqn:Ha; simpl in Hins; try done.
  destruct (varchar 500 s) as [s'|] eqn:Hs; simpl in Hins; try done.
  destruct (existsb (same_key t l) (current c)) eqn:Hex; simplify_eq.
  eexists. split_and!; [done..|].
  intros Hin. apply (existsb_same_key t l) in Hin. congruence.
Qed.

Lemma insert_quotation_unique (t : text) (lang a s : sqlval) (tgs : list text)
    (c c' : connection) :
  insert_quotation t lang a s tgs c = Some c' → conn_unique c → conn_unique c'.
Proof.
  intros Hins [Hc Hw].
  apply insert_quotation_spec in Hins as (r & -> & _ & _ & _ & _ & _ & Hfresh).
  split; simpl; [done|].
  unfold keys_unique. rewrite fmap_app. apply NoDup_app.
  split_and!; [done| |apply NoDup_singleton].
  intros k Hk ->%list_elem_of_singleton. done.
Qed.

Lemma commit_unique (c : connection) : conn_unique c → conn_unique (commit c).
Proof. intros [_ Hw]. by split. Qed.

Lemma rollback_unique (c : connection) : conn_unique c → conn_unique (rollback c).
Proof. intros [Hc _]. by split. Qed.

Lemma import_body_inserted (c c' : connection) (q : quote) :
  import_body c q = Inserted c' →
  ∃ t0, get_text q = Some t0
        ∧ insert_quotation (strip t0) (get_lang q) (get_author q) (get_source q)
            [lit "general"] c = Some c'.
Proof.
  unfold import_body. intros Hb.
  destruct (get_text q) as [t0|]; [|done]. exists t0. split; [done|].
  repeat case_match; simplify_eq; done.
Qed.

Lemma import_quote_unique (st : import_stats * connection) (q : quote) :
  conn_unique st.2 → conn_unique (import_quote st q).2.
Proof.
  destruct st as [s c]. simpl. intros Hu.
  destruct (import_body c q) as [| |c'] eqn:Hb; simpl.
  - by apply rollback_unique.
  - done.
  - apply import_body_inserted in Hb as (t0 & _ & Hins).
    pose proof (insert_quotation_unique _ _ _ _ _ _ _ Hins Hu) as Hu'.
    case_match; [by apply commit_unique|done].
Qed.

Lemma import_loop_unique (qs : list quote) (st : import_stats * connection) :
  conn_unique st.2 → conn_unique (foldl import_quote st qs).2.
Proof.
  revert st. induction qs as [|q qs IH]; intros st Hu; simpl; [done|].
  by apply IH, import_quote_unique.
Qed.

Lemma import_quotes_unique (clear : bool) (qs : list quote) (c0 : connection) :
  conn_unique c0 → conn_unique (import_quotes clear qs c0).2.
Proof.
  intros Hu. unfold import_quotes.
  set (c1 := if clear then _ else _).
  assert (Hu1 : conn_unique c1).
  { subst c1. destruct clear; [|done]. split; simpl; constructor. }
  pose proof (import_loop_unique qs
    ({| loaded := length qs; saved := 0; skipped := 0; errors := 0 |}, c1) Hu1) as Hl.
  destruct (foldl import_quote _ qs) as [s c]. simpl in *. by apply commit_unique.
Qed.

End ImportFacts.

(** C3.  Whatever the corpus file, the clear flag and the store, an import
    run on a table that satisfies the UNIQUE constraint leaves a table in
    which no two rows share [(text_original, language_original)]. *)
Theorem import_preserves_uniqueness `{Unicode} (input_file : text) (clear : bool)
    (dir : filesystem) (store : database) :
  NoDup (row_key <$> table store) →
  NoDup (row_key <$> table (import_to_postgres input_file clear dir store).2).
Proof.
  intros Hu. unfold import_to_postgres.
  destruct (lookup_file input_file dir) as [[|qs|]|]; try done.
  unfold get_db_connection.
  destruct (negb (db_url_set store)); [done|].
  destruct (negb (reachable store)); [done|].
  pose proof (import_quotes_unique clear qs
    {| committed := table store; current := table store |}) as Hq.
  destruct (import_quotes clear qs _) as [s c]. simpl in *.
  apply Hq. by split.
Qed.

Lemma import_preserves_uniqueness_witness :
  NoDup (row_key <$> table
    (import_to_postgres ALL_QUOTES_json false
       (Samples.corpus_dir [Samples.ice; Samples.heals_en; Samples.ice])
       {| db_url_set := true; reachable := true; table := [Samples.ice_row] |}).2).
Proof.
  apply import_preserves_uniqueness. simpl.
  apply NoDup_singleton.
Defined.



(** C10.  When the corpus file is missing or cannot be read as JSON, the
    importer returns the all-zero statistics and the store as it was,
    whatever the clear flag; it has no way to raise.  The orchestrator's
    import stage tests for the file first: when ALL_QUOTES.json does not
    exist it fails with an error message, without calling the importer. *)
Theorem importer_survives_missing_corpus `{Unicode} (input_file : text) (clear : bool)
    (dir : filesystem) (store : database) (p : pipeline) (s : state) :
  ((∀ qs, lookup_file input_file dir ≠ Some (Json qs)) →
     import_to_postgres input_file clear dir store = (no_stats, store))
  ∧ (skip_import p = false → lookup_file ALL_QUOTES_json (fs s) = None →
       run_import_stage p s = (false, logged CorpusNotFound (logged Stage3 s))).
Proof.
  split.
  - intros Hno. unfold import_to_postgres.
    destruct (lookup_file input_file dir) as [[|qs|]|]; try done.
    by destruct (Hno qs).
  - intros Hskip Hmiss. unfold run_import_stage. rewrite Hskip. simpl.
    by rewrite Hmiss.
Qed.

(** ** A second import after a first one without errors *)

Section SecondImport.
Context `{Unicode}.

Lemma import_quote_errors_mono (st : import_stats * connection) (q : quote) :
  (errors st.1 ≤ errors (import_quote st q).1)%nat.
Proof.
  destruct st as [s c]. simpl. destruct (import_body c q); simpl; lia.
Qed.

Lemma import_loop_errors_mono (qs : list quote) (st : import_stats * connection) :
  (errors st.1 ≤ errors (foldl import_quote st qs).1)%nat.
Proof.
  revert st. induction qs as [|q qs IH]; intros st; simpl; [done|].
  etrans; [apply (import_quote_errors_mono st q)|apply IH].
Qed.

(** A step that counts no error did not raise, and it only adds to what the
    transaction sees. *)
Lemma import_quote_no_error (st : import_stats * connection) (q : quote) :
  errors (import_quote st q).1 = errors st.1 →
  import_body st.2 q ≠ Raised
  ∧ current st.2 ⊆ current (import_quote st q).2
  ∧ ∀ c', import_body st.2 q = Inserted c' →
          current c' = current (import_quote st q).2.
Proof.
  destruct st as [s c]. simpl.
  destruct (import_body c q) as [| |c'] eqn:Hb; simpl; intros He.
  - lia.
  - split_and!; [done|done|done].
  - apply import_body_inserted in Hb as (t0 & _ & Hins).
    apply insert_quotation_spec in Hins as (r & -> & _).
    split_and!; [done| |].
    + case_match; simpl; intros x Hx; apply elem_of_app; by left.
    + intros c'' [= <-]. by case_match.
Qed.

Lemma import_loop_no_error (qs : list quote) (st : import_stats * connection) :
  errors (foldl import_quote st qs).1 = errors st.1 →
  current st.2 ⊆ current (foldl import_quote st qs).2.
Proof.
  revert st. induction qs as [|q qs IH]; intros st He; simpl in *; [done|].
  pose proof (import_quote_errors_mono st q) as H1.
  pose proof (import_loop_errors_mono qs (import_quote st q)) as H2.
  destruct (import_quote_no_error st q) as (_ & Hsub & _); [lia|].
  etrans; [exact Hsub|]. apply IH. lia.
Qed.

Lemma existsb_same_key_mono (t l : text) (rows rows' : list row) :
  rows ⊆ rows' → existsb (same_key t l) rows = true →
  existsb (same_key t l) rows' = true.
Proof.
  intros Hsub. rewrite !existsb_exists.
  intros (r & Hin & Hk). exists r. split; [|done].
  apply list_elem_of_In, Hsub, list_elem_of_In, Hin.
Qed.

(** On the table [T] a first run ended with, a record that the first run
    skipped or inserted is skipped, or refused by the UNIQUE constraint. *)
Lemma second_pass_step (T : list row) (c : connection) (q : quote) :
  current c ⊆ T →
  import_body c q ≠ Raised →
  (∀ c', import_body c q = Inserted c' → current c' ⊆ T) →
  let cT := {| committed := T; current := T |} in
  import_body cT q = Skipped ∨ import_body cT q = Raised.
Proof.
  intros Hsub Hnr Hins cT. unfold import_body in *.
  destruct (get_text q) as [t0|]; [|done].
  case_bool_decide; [by left|].
  destruct (is_valid_quotation (strip t0)); simpl in *; [|by left].
  unfold select_existing in *.
  destruct (adaptable (Some (strip t0)) && adaptable (get_lang q)); [|done].
  destruct (get_lang q) as [l|] eqn:Hl.
  - destruct (existsb (same_key (strip t0) l) (current c)) eqn:Hex.
    + left. simpl. by rewrite (existsb_same_key_mono _ _ _ T Hsub Hex).
    + destruct (insert_quotation _ _ _ _ _ c) as [c'|] eqn:Hi; [|done].
      specialize (Hins c' eq_refl).
      simpl. destruct (existsb (same_key (strip t0) l) T) eqn:HexT; [by left|].
      right.
      pose proof Hi as Hi'.
      apply insert_quotation_spec in Hi' as (r & -> & Ht & Hv & _).
      unfold insert_quotation in *.
      destruct (_ && _ && _ && _ && _); [|done].
      rewrite Hv. simpl.
      destruct (varchar 255 (get_author q)); simpl; [|done].
      destruct (varchar 500 (get_source q)); simpl; [|done].
      assert (Hin : existsb (same_key (strip t0) (language_original r)) T = true).
      { apply existsb_same_key, list_elem_of_fmap. exists r. split.
        - unfold row_key. by rewrite Ht.
        - apply Hins. simpl. apply elem_of_app. right.
          by apply list_elem_of_singleton. }
      by rewrite Hin.
  - destruct (insert_quotation _ _ _ _ _ c) as [c'|] eqn:Hi; [|done].
    apply insert_quotation_spec in Hi as (r & _ & _ & Hv & _). done.
Qed.

Lemma second_pass (T : list row) (qs : list quote)
    (st : import_stats * connection) (s2 : import_stats) :
  errors (foldl import_quote st qs).1 = errors st.1 →
  current (foldl import_quote st qs).2 ⊆ T →
  let cT := {| committed := T; current := T |} in
  saved (foldl import_quote (s2, cT) qs).1 = saved s2
  ∧ (foldl import_quote (s2, cT) qs).2 = cT.
Proof.
  revert st s2. induction qs as [|q qs IH]; intros st s2 He HT cT; [done|].
  cbn [foldl] in *.
  pose proof (import_quote_errors_mono st q) as H1.
  pose proof (import_loop_errors_mono qs (import_quote st q)) as H2.
  destruct (import_quote_no_error st q) as (Hnr & Hsub & Hins); [lia|].
  assert (Hrest : current (import_quote st q).2 ⊆ T).
  { etrans; [|exact HT]. apply import_loop_no_error. lia. }
  destruct (second_pass_step T st.2 q) as [Hb|Hb].
  - by etrans.
  - done.
  - intros c' Hc'. by rewrite (Hins c' Hc').
  - destruct (IH (import_quote st q)
                {| loaded := loaded s2; saved := saved s2; skipped := S (skipped s2);
                   errors := errors s2 |}) as [Hs Hc]; [lia|done|].
    unfold import_quote at 2 4. fold cT in Hb. rewrite Hb. done.
  - destruct (IH (import_quote st q)
                {| loaded := loaded s2; saved := saved s2; skipped := skipped s2;
                   errors := S (errors s2) |}) as [Hs Hc]; [lia|done|].
    unfold import_quote at 2 4. fold cT in Hb. rewrite Hb. done.
Qed.

(** When a first run without clearing counted no error, a second run on the
    same corpus and the resulting store saves nothing and leaves the store
    as it is. *)
Lemma second_import_idempotent_without_errors (input_file : text)
    (dir : filesystem) (store : database) :
  let first := import_to_postgres input_file false dir store in
  let second := import_to_postgres input_file false dir first.2 in
  errors first.1 = 0%nat →
  saved second.1 = 0%nat ∧ second.2 = first.2.
Proof.
  unfold import_to_postgres.
  destruct (lookup_file input_file dir) as [[|qs|]|]; simpl; try done.
  unfold get_db_connection.
  destruct (db_url_set store) eqn:Hurl; simpl; [|by rewrite Hurl].
  destruct (reachable store) eqn:Hup; simpl; [|by rewrite Hurl, Hup].
  unfold import_quotes.
  set (s1 := {| loaded := length qs; saved := 0; skipped := 0; errors := 0 |}).
  set (c0 := {| committed := table store; current := table store |}).
  destruct (foldl import_quote (s1, c0) qs) as [s c] eqn:Hrun. simpl.
  intros He.
  destruct (second_pass (current c) qs (s1, c0) s1) as [Hs Hc].
  { rewrite Hrun. simpl. done. }
  { rewrite Hrun. done. }
  destruct (foldl import_quote
              (s1, {| committed := current c; current := current c |}) qs) as [s' c'].
  simpl in *. subst c'. done.
Qed.

End SecondImport.

(** C2, the code at a corpus on which the claim fails.  The corpus holds a
    valid record followed by a valid record whose author does not fit
    VARCHAR(255).  On the empty table the first run counts one row saved and
    one error, and the rollback after the error discards the row: the table
    stays empty.  The second run on that store does the same again and
    reports one row saved, not zero. *)
Theorem second_import_saves_again :
  let dir := Samples.corpus_dir [Samples.ice; Samples.long_author] in
  let first := import_to_postgres ALL_QUOTES_json false dir Samples.empty_store in
  let second := import_to_postgres ALL_QUOTES_json false dir first.2 in
  first = ({| loaded := 2; saved := 1; skipped := 0; errors := 1 |}, Samples.empty_store)
  ∧ second = first
  ∧ saved second.1 = 1%nat.
Proof. vm_compute. done. Qed.

(** ** The orchestrator *)

Section PipelineFacts.
Context `{Unicode}.
Variable extract_quotes_count : text → Z.

Local Abbreviation run_harvest_script := (run_harvest_script extract_quotes_count).
Local Abbreviation harvest_one := (harvest_one extract_quotes_count).
Local Abbreviation run_harvest_stage := (run_harvest_stage extract_quotes_count).
Local Abbreviation after_harvest := (after_harvest extract_quotes_count).
Local Abbreviation run := (run extract_quotes_count).
Local Abbreviation main := (main extract_quotes_count).

Lemma run_harvest_script_log (sc : script) (dir : filesystem) :
  ∃ e, (run_harvest_script sc dir).2 = [Running (script_name sc); e].
Proof.
  unfold run_harvest_script.
  destruct (script_run sc script_timeout dir) as [[rc out err| |msg] dir'];
    repeat case_match; simpl; eauto.
Qed.

Lemma harvest_one_log (s : state) (sc : script) :
  ∃ e, log (harvest_one s sc) = log s ++ [Running (script_name sc); e].
Proof.
  unfold harvest_one.
  destruct (run_harvest_script_log sc (fs s)) as [e He].
  destruct (run_harvest_script sc (fs s)) as [[[[[ok msg] n] errs] dir'] lines].
  simpl in He. subst lines. exists e. done.
Qed.

Lemma harvest_one_db (s : state) (sc : script) : db (harvest_one s sc) = db s.
Proof.
  unfold harvest_one.
  by destruct (run_harvest_script sc (fs s)) as [[[[[ok msg] n] errs] dir'] lines].
Qed.

Lemma harvest_loop_facts (scripts : list script) (s : state) :
  let s' := foldl harvest_one s scripts in
  db s' = db s
  ∧ log s `prefix_of` log s'
  ∧ ∀ sc, sc ∈ scripts → Running (script_name sc) ∈ log s'.
Proof.
  revert s. induction scripts as [|sc scripts IH]; intros s; simpl.
  - split_and!; [done|done|]. intros sc Hsc. by apply elem_of_nil in Hsc.
  - destruct (IH (harvest_one s sc)) as (Hdb & Hpre & Hran).
    destruct (harvest_one_log s sc) as [e He].
    split_and!.
    + by rewrite Hdb, harvest_one_db.
    + etrans; [|exact Hpre]. rewrite He. by apply prefix_app_r.
    + intros sc' [->|Hin]%elem_of_cons; [|by apply Hran].
      eapply elem_of_prefix; [|exact Hpre].
      rewrite He. apply elem_of_app. right. apply elem_of_cons. by left.
Qed.

Lemma after_harvest_facts (p : pipeline) (scripts : list script) (s : state) :
  let s' := after_harvest p scripts s in
  db s' = db s
  ∧ log s `prefix_of` log s'
  ∧ (skip_harvest p = false → ∀ sc, sc ∈ scripts → Running (script_name sc) ∈ log s')
  ∧ (skip_harvest p = false → (run_harvest_stage p scripts s).1 = false →
       NoHarvestSucceeded ∈ log s').
Proof.
  unfold after_harvest, run_harvest_stage.
  destruct (skip_harvest p) eqn:Hskip; simpl.
  { split_and!; [done|by apply prefix_app_r|done|done]. }
  destruct scripts as [|sc scripts]; simpl.
  { split_and!; [done| |intros _ sc Hsc; by apply elem_of_nil in Hsc|].
    - rewrite <-!app_assoc. by apply prefix_app_r.
    - intros _ _. apply elem_of_app. right. by apply list_elem_of_singleton. }
  set (s1 := harvest_one _ sc).
  destruct (harvest_loop_facts scripts s1) as (Hdb & Hpre & Hran).
  assert (Hpre1 : log s `prefix_of` log s1).
  { subst s1. destruct (harvest_one_log
      (with_harvest (set_total (S (length scripts)) (st_harvest (stats s)))
         (logged Stage1 s)) sc) as [e He].
    rewrite He. simpl. rewrite <-app_assoc. by apply prefix_app_r. }
  assert (Hran1 : Running (script_name sc) ∈ log s1).
  { subst s1. destruct (harvest_one_log
      (with_harvest (set_total (S (length scripts)) (st_harvest (stats s)))
         (logged Stage1 s)) sc) as [e He].
    rewrite He. apply elem_of_app. right. apply elem_of_cons. by left. }
  assert (Hdb1 : db s1 = db s) by (subst s1; by rewrite harvest_one_db).
  case_bool_decide as Hsucc; simpl.
  - split_and!; [congruence|by etrans| |done].
    intros _ sc' [->|Hin]%elem_of_cons; [|by apply Hran].
    by eapply elem_of_prefix.
  - split_and!; [congruence| | |].
    + etrans; [exact Hpre1|]. etrans; [exact Hpre|]. by apply prefix_app_r.
    + intros _ sc' Hin. apply elem_of_app. left.
      apply elem_of_cons in Hin as [->|Hin]; [|by apply Hran].
      by eapply elem_of_prefix.
    + intros _ _. apply elem_of_app. right. by apply list_elem_of_singleton.
Qed.

Lemma run_merge_stage_facts (p : pipeline) (s : state) :
  let r := run_merge_stage p s in
  db r.2 = db s
  ∧ (∃ e, (e = SkippingMerge ∨ e = Stage2) ∧ log s ++ [e] `prefix_of` log r.2)
  ∧ (r.1 = false ↔ merge_failed p s).
Proof.
  unfold run_merge_stage, merge_failed.
  destruct (skip_merge p); simpl.
  { split_and!; [done|exists SkippingMerge; split; [by left|done]|].
    split; [done|by intros [? _]]. }
  destruct (merge_quotes _ _ _ _ (fs s)) as [[quotes dir']|] eqn:Hm; simpl.
  - split_and!; [done|exists Stage2; split; [by right|done]|].
    split.
    + intros Hb%bool_decide_eq_false. split; [done|].
      intros ? ? [= <- <-]. destruct quotes; [done|]. simpl in Hb. lia.
    + intros [_ Hq]. rewrite (Hq _ _ eq_refl). done.
  - split_and!; [done|exists Stage2; split; [by right|by apply prefix_app_r]|].
    split; [|done]. intros _. split; [done|]. intros; simplify_eq.
Qed.

Lemma run_import_stage_facts (p : pipeline) (s : state) :
  let r := run_import_stage p s in
  log s `prefix_of` log r.2
  ∧ (db_url_set (db s) = false → db r.2 = db s)
  ∧ (r.1 = false ↔ import_failed p s).
Proof.
  unfold run_import_stage, import_failed.
  destruct (skip_import p); simpl.
  { split_and!; [by apply prefix_app_r|done|]. split; [done|by intros [? _]]. }
  destruct (lookup_file ALL_QUOTES_json (fs s)) as [c|] eqn:Hl; simpl.
  - destruct (import_to_postgres ALL_QUOTES_json (clear_db p) (fs s) (db s))
      as [st db'] eqn:Himp. simpl.
    split_and!.
    + by apply prefix_app_r.
    + intros Hurl. unfold import_to_postgres, get_db_connection in Himp.
      rewrite Hl, Hurl in Himp. simpl in Himp. destruct c; by simplify_eq.
    + rewrite orb_false_iff, !bool_decide_eq_false. split.
      * intros [? ?]. split; [done|]. right. split; lia.
      * intros [_ [?|[? ?]]]; [done|split; lia].
  - split_and!; [rewrite <-app_assoc; by apply prefix_app_r|done|].
    split; [|done]. intros _. split; [done|by left].
Qed.

End PipelineFacts.



(** C6, as amended.  There is no check at startup.  When DB_URL is not set
    and the import stage is not skipped (and the run is not statistics-only)
    the run ends with exit code 1 and the store untouched, but the failure
    is the last thing that happens: it is reported by the merge stage or the
    import stage, after the harvest stage has run every harvest script. *)
Theorem missing_db_url_fails_after_harvest `{Unicode} (extract_quotes_count : text → Z)
    (p : pipeline) (scripts : list script) (dir : filesystem) (store : database) :
  db_url_set store = false → stats_only p = false → skip_import p = false →
  let result := main extract_quotes_count p scripts dir store in
  result.1 = 1%Z
  ∧ db result.2 = store
  ∧ (last (log result.2) = Some MergeStageFailed
     ∨ last (log result.2) = Some ImportStageFailed)
  ∧ (skip_harvest p = false →
       ∀ sc, sc ∈ scripts → Running (script_name sc) ∈ log result.2).
Proof.
  intros Hurl Hso Hsi result.
  set (s1 := after_harvest extract_quotes_count p scripts (start dir store)).
  destruct (after_harvest_facts extract_quotes_count p scripts (start dir store))
    as (Hdb1 & _ & Hran & _).
  fold s1 in Hdb1, Hran. simpl in Hdb1.
  destruct (run_merge_stage_facts p s1) as (Hdb2 & (e & _ & Hpre2) & _).
  set (m := run_merge_stage p s1) in *.
  destruct (run_import_stage_facts p m.2) as (Hpre3 & Hdb3 & Hi).
  set (i := run_import_stage p m.2) in *.
  assert (Hifail : i.1 = false).
  { apply Hi. split; [done|].
    destruct (lookup_file ALL_QUOTES_json (fs m.2)) as [c|] eqn:Hl; [right|by left].
    unfold import_to_postgres, get_db_connection.
    rewrite Hl, Hdb2, Hdb1, Hurl. simpl. by destruct c. }
  assert (Hres : result = if m.1 then (1%Z, logged ImportStageFailed i.2)
                          else (1%Z, logged MergeStageFailed m.2)).
  { subst result i m. unfold main, run. rewrite Hso. fold s1.
    destruct (run_merge_stage p s1) as [[] s2']; simpl in *; [|done].
    destruct (run_import_stage p s2') as [[] s3]; simpl in *; done. }
  assert (Hlog : ∀ x, x ∈ log s1 → x ∈ log result.2).
  { intros x Hx.
    assert (x ∈ log m.2).
    { eapply elem_of_prefix; [|exact Hpre2]. apply elem_of_app. by left. }
    rewrite Hres. destruct m.1; simpl; [|apply elem_of_app; by left].
    assert (x ∈ log i.2) by by eapply elem_of_prefix.
    apply elem_of_app. by left. }
  split_and!.
  - rewrite Hres. by destruct m.1.
  - rewrite Hres. destruct m.1; simpl; [|congruence].
    rewrite Hdb3; [congruence|]. by rewrite Hdb2, Hdb1.
  - rewrite Hres. destruct m.1; simpl; rewrite last_snoc; auto.
  - intros Hsh sc Hsc. by apply Hlog, Hran.
Qed.

Lemma missing_db_url_fails_after_harvest_witness :
  let result := main Samples.no_count Samples.all_stages [Samples.script_ok]
                  Samples.empty_dir Samples.no_db_url in
  result.1 = 1%Z ∧ Running (lit "harvest_a.py") ∈ log result.2.
Proof.
  intros result.
  destruct (missing_db_url_fails_after_harvest Samples.no_count Samples.all_stages
              [Samples.script_ok] Samples.empty_dir Samples.no_db_url
              eq_refl eq_refl eq_refl) as (Hexit & _ & _ & Hran).
  split; [exact Hexit|].
  apply (Hran eq_refl Samples.script_ok). by apply list_elem_of_singleton.
Defined.

(** C6, the claim as stated fails.  With DB_URL missing, the full pipeline
    runs the harvest script, then the merge stage (which writes the corpus),
    then enters the import stage, and only there fails; and when the import
    stage is skipped the run does not fail at all. *)
Lemma missing_db_url_not_checked_at_startup :
  let full := main Samples.no_count Samples.all_stages [Samples.script_ok]
                Samples.empty_dir Samples.no_db_url in
  let partial := main Samples.no_count Samples.without_import [Samples.script_ok]
                   Samples.empty_dir Samples.no_db_url in
  db_url_set Samples.no_db_url = false
  ∧ full.1 = 1%Z
  ∧ log full.2 = [Stage1; Running (lit "harvest_a.py"); CompletedOk (lit "harvest_a.py");
                  Stage2; Stage3; ImportStageFailed]
  ∧ lookup_file ALL_QUOTES_json (fs full.2) = Some (Json [Samples.ice])
  ∧ partial.1 = 0%Z.
Proof. vm_compute. done. Qed.

(** C7, as amended.  A harvest script is run with a time limit of 3600
    seconds.  When it runs into the limit it is classified as a failure,
    whatever it collected: the tuple returned is (False, 'Timeout', 0, []),
    the [failed] counter goes up by one, an error entry is recorded, and the
    [success] and [skipped] counters and the quote total stay as they were.
    The directory is left as the script left it. *)
Theorem timeout_counts_as_failure `{Unicode} (extract_quotes_count : text → Z)
    (s : state) (sc : script) (dir' : filesystem) :
  script_run sc 3600%Z (fs s) = (TimeoutExpired, dir') →
  let s' := harvest_one extract_quotes_count s sc in
  let h := st_harvest (stats s) in
  let h' := st_harvest (stats s') in
  run_harvest_script extract_quotes_count sc (fs s)
    = ((false, lit "Timeout", 0%Z, []), dir',
       [Running (script_name sc); TimedOut (script_name sc)])
  ∧ h_failed h' = S (h_failed h)
  ∧ h_success h' = h_success h
  ∧ h_skipped h' = h_skipped h
  ∧ h_total_quotes h' = h_total_quotes h
  ∧ h_errors h' = h_errors h ++
      [{| ei_script := script_name sc; ei_type := lit "error";
          ei_error := Some (lit "Timeout"); ei_errors := [] |}]
  ∧ fs s' = dir'.
Proof.
  intros Hrun s' h h'.
  assert (Hr : run_harvest_script extract_quotes_count sc (fs s)
    = ((false, lit "Timeout", 0%Z, []), dir',
       [Running (script_name sc); TimedOut (script_name sc)])).
  { unfold run_harvest_script, script_timeout. by rewrite Hrun. }
  subst s' h h'. unfold harvest_one. rewrite Hr. simpl. done.
Qed.

Lemma timeout_counts_as_failure_witness :
  h_failed (st_harvest (stats
    (harvest_one Samples.no_count (start Samples.empty_dir Samples.empty_store)
       Samples.script_timeout_partial))) = 1%nat.
Proof.
  destruct (timeout_counts_as_failure Samples.no_count
              (start Samples.empty_dir Samples.empty_store)
              Samples.script_timeout_partial _ eq_refl) as (_ & Hfailed & _).
  exact Hfailed.
Defined.

(** C7, the claim as stated fails.  A script that times out with nothing
    collected is counted as failed, not as skipped (the acceptable
    failures); a script that times out after writing a partial file is
    counted as failed too, not as a success, and none of its records is
    counted. *)
Lemma timeout_neither_acceptable_nor_partial :
  let s0 := start Samples.empty_dir Samples.empty_store in
  let empty := harvest_one Samples.no_count s0 Samples.script_timeout_empty in
  let partial := harvest_one Samples.no_count s0 Samples.script_timeout_partial in
  (h_skipped (st_harvest (stats empty)) = 0%nat
   ∧ h_failed (st_harvest (stats empty)) = 1%nat)
  ∧ (lookup_file (lit "c.json") (fs partial) = Some (Json [Samples.ice])
     ∧ h_success (st_harvest (stats partial)) = 0%nat
     ∧ h_failed (st_harvest (stats partial)) = 1%nat
     ∧ h_total_quotes (st_harvest (stats partial)) = 0%Z).
Proof. vm_compute. done. Qed.

(** ** The harvesters *)

Section HarvesterFacts.
Context `{Unicode}.

Lemma get_with_fallback_down {page : Type} (net : network page) (n : nat) (url : text) :
  (∀ k u v, down (net k u v) = true) →
  down (get_with_fallback net n url).1 = true
  ∧ (n < (get_with_fallback net n url).2)%nat.
Proof.
  intros Hdown. unfold get_with_fallback.
  pose proof (Hdown n url true) as H1.
  destruct (net n url true) eqn:Hr; simpl; (split; [|lia]); auto.
Qed.

Lemma try_urls_down (net : network CitatyNet.page) (n : nat) (urls : list text) :
  (∀ k u v, down (net k u v) = true) →
  (CitatyNet.try_urls net n urls).1 = None.
Proof.
  intros Hdown. revert n. induction urls as [|url urls IH]; intros n; simpl; [done|].
  destruct (get_with_fallback_down net n url Hdown) as [Hd _].
  destruct (get_with_fallback net n url) as [r n']. simpl in Hd.
  destruct r as [| |status body]; try apply IH.
  simpl in Hd. destruct (status =? 404)%Z; [apply IH|].
  rewrite Hd. apply IH.
Qed.

Lemma harvest_author_down (net : network WikiquoteRu.page)
    (quotes : list quote) (lg : list harvest_log) (n : nat) (a : text) :
  (∀ k u v, down (net k u v) = true) →
  ∃ lg' n', WikiquoteRu.harvest_author net (quotes, lg, n) a = (quotes, lg', n')
            ∧ (n < n')%nat.
Proof.
  intros Hdown. unfold WikiquoteRu.harvest_author.
  destruct (get_with_fallback_down net n (WikiquoteRu.author_url a) Hdown) as [Hd Hn].
  destruct (get_with_fallback net n (WikiquoteRu.author_url a)) as [r n1].
  simpl in Hd, Hn.
  assert (Hstep : ∀ (lg' : list harvest_log) (n' : nat), (n < n')%nat →
    ∃ lg'' n'', (quotes, lg', n') = (quotes, lg'', n'') ∧ (n < n'')%nat) by eauto.
  destruct r as [| |status body]; [by apply Hstep..|].
  simpl in Hd. destruct (status =? 404)%Z; [by apply Hstep|].
  destruct (status =? 403)%Z.
  - pose proof (Hdown n1 (WikiquoteRu.author_url a) false) as Hd2.
    destruct (net n1 (WikiquoteRu.author_url a) false) as [| |status2 body2];
      [apply Hstep; lia..|].
    simpl in Hd2. destruct (status2 =? 403)%Z; [apply Hstep; lia|].
    rewrite Hd2. apply Hstep; lia.
  - rewrite Hd. by apply Hstep.
Qed.

Lemma harvest_authors_down (net : network WikiquoteRu.page) (authors : list text)
    (quotes : list quote) (lg : list harvest_log) (n : nat) :
  (∀ k u v, down (net k u v) = true) →
  ∃ lg' n', foldl (WikiquoteRu.harvest_author net) (quotes, lg, n) authors
              = (quotes, lg', n')
            ∧ (n + length authors ≤ n')%nat.
Proof.
  intros Hdown. revert lg n.
  induction authors as [|a authors IH]; intros lg n; cbn [foldl length].
  - exists lg, n. split; [done|lia].
  - destruct (harvest_author_down net quotes lg n a Hdown) as (lg1 & n1 & -> & Hn1).
    destruct (IH lg1 n1) as (lg' & n' & -> & Hn').
    exists lg', n'. split; [done|lia].
Qed.

End HarvesterFacts.

(** C8, as amended.  When every request of a run fails (an exception of the
    HTTP library or an HTTP error status), both harvesters return an empty
    list without raising and leave the directory untouched, writing no
    output file.  harvest_citaty_net stops at the first page, logging that
    no quotes were found on page 1; harvest_wikiquote_ru does not stop early
    but requests every author.  Neither records a stop reason in what it
    returns, which is the bare list. *)
Theorem unreachable_source_yields_empty_list `{Unicode}
    (net_c : network CitatyNet.page) (net_w : network WikiquoteRu.page)
    (max_pages : Z) (authors : option (list text)) (output_file : text)
    (dir : filesystem) :
  (∀ n url verify, down (net_c n url verify) = true) →
  (∀ n url verify, down (net_w n url verify) = true) →
  let c := CitatyNet.harvest_citaty_net net_c max_pages output_file dir in
  let w := WikiquoteRu.harvest_wikiquote_ru net_w authors output_file dir in
  (returned c = Some [] ∧ dir_after c = dir
   ∧ run_log c = if (0 <? max_pages)%Z then [NoQuotesOnPage 1] else [])
  ∧ (returned w = Some [] ∧ dir_after w = dir
     ∧ (length (default WikiquoteRu.default_authors authors) ≤ requests_made w)%nat).
Proof.
  intros Hc Hw c w. split.
  - subst c. unfold CitatyNet.harvest_citaty_net, CitatyNet.page_numbers.
    destruct (0 <? max_pages)%Z eqn:Hpos.
    + apply Z.ltb_lt in Hpos.
      destruct (Z.to_nat max_pages) as [|k] eqn:Hk; [lia|].
      cbn [seq fmap list_fmap CitatyNet.pages_loop Z.of_nat].
      pose proof (try_urls_down net_c 0 (CitatyNet.url_patterns (Z.pos (Pos.of_succ_nat 0)))
                    Hc) as Hnone.
      destruct (CitatyNet.try_urls net_c 0 _) as [o n'].
      simpl in Hnone. subst o. split_and!; reflexivity.
    + apply Z.ltb_ge in Hpos.
      replace (Z.to_nat max_pages) with 0%nat by lia. done.
  - subst w. unfold WikiquoteRu.harvest_wikiquote_ru.
    destruct (harvest_authors_down net_w (default WikiquoteRu.default_authors authors)
                [] [] 0 Hw) as (lg' & n' & -> & Hn').
    simpl. split_and!; [done|done|lia].
Qed.

Lemma unreachable_source_yields_empty_list_witness :
  returned (CitatyNet.harvest_citaty_net Samples.refused 50 (lit "citaty_net.json")
              Samples.empty_dir) = Some []
  ∧ returned (WikiquoteRu.harvest_wikiquote_ru Samples.refused None
                (lit "citaty_net.json") Samples.empty_dir) = Some [].
Proof.
  destruct (unreachable_source_yields_empty_list Samples.refused Samples.refused 50 None
              (lit "citaty_net.json") Samples.empty_dir
              (fun _ _ _ => eq_refl) (fun _ _ _ => eq_refl))
    as ((Hc & _) & (Hw & _)).
  split; [exact Hc|exact Hw].
Defined.

(** C8, the claim as stated fails.  With every request refused,
    [harvest_citaty_net(50)] returns the bare empty list after three
    requests, and the only reason it gives is the log line that no quotes
    were found on page 1; [harvest_wikiquote_ru] on two authors does not stop
    early at all: it requests both and logs an error for each.  No run
    carries the stop reason 'unavailable'. *)
Lemma refused_source_gives_no_unavailable_reason :
  CitatyNet.harvest_citaty_net Samples.refused 50 (lit "citaty_net.json") Samples.empty_dir
  = {| returned := Some []; dir_after := Samples.empty_dir;
       run_log := [NoQuotesOnPage 1]; requests_made := 3 |}
  ∧ WikiquoteRu.harvest_wikiquote_ru Samples.refused (Some [Samples.plato; Samples.kant])
      (lit "wikiquote_ru.json") Samples.empty_dir
    = {| returned := Some []; dir_after := Samples.empty_dir;
         run_log := [ErrorLoadingAuthor Samples.plato; ErrorLoadingAuthor Samples.kant];
         requests_made := 2 |}.
Proof. vm_compute. done. Qed.

(** * Further properties *)

(** ** Whitespace: [strip], [split] and [normalize_ws] *)

Lemma lstrip_idem (t : text) : lstrip (lstrip t) = lstrip t.
Proof.
  induction t as [|c t IH]; [done|]. simpl.
  destruct (is_space c) eqn:Hc; [done|]. simpl. by rewrite Hc.
Qed.

Lemma lstrip_app (a b : text) :
  lstrip (a ++ b) = if forallb is_space a then lstrip b else lstrip a ++ b.
Proof.
  induction a as [|c a IH]; [done|]. simpl.
  destruct (is_space c); [done|]. done.
Qed.

Lemma lstrip_all_space (a : text) : forallb is_space a = true → lstrip a = [].
Proof.
  induction a as [|c a IH]; [done|]. simpl.
  destruct (is_space c); [done|]. done.
Qed.

Lemma rstrip_snoc (s : text) (c : N) :
  rstrip (s ++ [c]) = if is_space c then rstrip s else s ++ [c].
Proof.
  unfold rstrip. rewrite reverse_snoc. simpl.
  destruct (is_space c); [done|].
  by rewrite reverse_cons, reverse_involutive.
Qed.

Lemma rstrip_idem (s : text) : rstrip (rstrip s) = rstrip s.
Proof. unfold rstrip. by rewrite reverse_involutive, lstrip_idem. Qed.

Lemma lstrip_rstrip (s : text) : lstrip (rstrip s) = rstrip (lstrip s).
Proof.
  induction s as [|c s IH] using rev_ind; [done|].
  rewrite rstrip_snoc, lstrip_app.
  destruct (is_space c) eqn:Hc.
  - rewrite IH. destruct (forallb is_space s) eqn:Hs.
    + simpl. rewrite Hc. by rewrite (lstrip_all_space s Hs).
    + by rewrite rstrip_snoc, Hc.
  - rewrite lstrip_app. destruct (forallb is_space s) eqn:Hs.
    + simpl. rewrite Hc. change [c] with ([] ++ [c]). by rewrite rstrip_snoc, Hc.
    + by rewrite rstrip_snoc, Hc.
Qed.

Lemma strip_idem (t : text) : strip (strip t) = strip t.
Proof.
  unfold strip. by rewrite lstrip_rstrip, lstrip_idem, rstrip_idem.
Qed.

Lemma split_lstrip (t : text) : split (lstrip t) = split t.
Proof.
  unfold split. induction t as [|c t IH]; [done|]. simpl.
  destruct (is_space c) eqn:Hc; [done|]. simpl. by rewrite Hc.
Qed.

Lemma split_go_snoc_space (cur s : text) (c : N) :
  is_space c = true → split_go cur (s ++ [c]) = split_go cur s.
Proof.
  intros Hc. revert cur. induction s as [|d s IH]; intros cur; simpl.
  - rewrite Hc. by destruct cur.
  - destruct (is_space d); [|apply IH].
    destruct cur; by rewrite IH.
Qed.

Lemma split_rstrip (t : text) : split (rstrip t) = split t.
Proof.
  induction t as [|c t IH] using rev_ind; [done|].
  rewrite rstrip_snoc. destruct (is_space c) eqn:Hc; [|done].
  rewrite IH. unfold split. by rewrite split_go_snoc_space.
Qed.

Lemma split_strip (t : text) : split (strip t) = split t.
Proof. unfold strip. by rewrite split_rstrip, split_lstrip. Qed.

(** [split] keeps exactly the characters that are not whitespace, in order. *)
Lemma concat_split_go (cur s : text) :
  concat (split_go cur s) = reverse cur ++ filter (fun c => is_space c = false) s.
Proof.
  revert cur. induction s as [|c s IH]; intros cur; simpl.
  - destruct cur; simpl; [done|]. by rewrite !app_nil_r.
  - rewrite filter_cons. destruct (is_space c) eqn:Hc.
    + rewrite decide_False by done.
      destruct cur as [|x cur]; simpl; rewrite IH; done.
    + rewrite decide_True by done.
      rewrite IH, reverse_cons, <-app_assoc. done.
Qed.

Lemma elem_of_join (sep : text) (parts : list text) (p : text) (x : N) :
  p ∈ parts → x ∈ p → x ∈ join sep parts.
Proof.
  induction parts as [|q parts IH]; intros Hp Hx; [by apply elem_of_nil in Hp|].
  apply elem_of_cons in Hp as [->|Hp].
  - destruct parts; simpl; [done|]. apply elem_of_app. by left.
  - specialize (IH Hp Hx). destruct parts as [|q' parts]; [by apply elem_of_nil in Hp|].
    cbn [join]. rewrite !elem_of_app. right. right. exact IH.
Qed.

Lemma elem_of_concat {A} (x : A) (ls : list (list A)) :
  x ∈ concat ls ↔ ∃ l, x ∈ l ∧ l ∈ ls.
Proof.
  induction ls as [|l ls IH]; simpl.
  - split; [by intros ?%elem_of_nil|]. intros (l & _ & Hl). by apply elem_of_nil in Hl.
  - rewrite elem_of_app, IH. split.
    + intros [Hx|(l' & Hx & Hl')].
      * exists l. split; [done|]. apply elem_of_cons. by left.
      * exists l'. split; [done|]. apply elem_of_cons. by right.
    + intros (l' & Hx & [->|Hl']%elem_of_cons); [by left|]. right. eauto.
Qed.

(** A character that is not whitespace survives normalization. *)
Lemma elem_of_normalize_ws (t : text) (c : N) :
  c ∈ t → is_space c = false → c ∈ normalize_ws t.
Proof.
  intros Hc Hs.
  assert (Hin : c ∈ concat (split t)).
  { unfold split. rewrite concat_split_go. simpl.
    apply list_elem_of_filter. done. }
  apply elem_of_concat in Hin as (p & Hcp & Hp).
  by apply (elem_of_join _ _ p).
Qed.

Lemma split_go_parts (cur s : text) :
  Forall (fun c => is_space c = false) cur →
  Forall is_word_part (split_go cur s).
Proof.
  revert cur. induction s as [|c s IH]; intros cur Hcur; simpl.
  - destruct cur as [|x cur]; [constructor|].
    constructor; [|constructor]. split.
    + intros Hr. apply (f_equal length) in Hr. by rewrite length_reverse in Hr.
    + by apply Forall_reverse.
  - destruct (is_space c) eqn:Hc.
    + destruct cur as [|x cur]; [by apply IH|].
      constructor; [|by apply IH]. split.
      * intros Hr. apply (f_equal length) in Hr. by rewrite length_reverse in Hr.
      * by apply Forall_reverse.
    + apply IH. by constructor.
Qed.

Lemma split_go_word (cur p s : text) :
  Forall (fun c => is_space c = false) p →
  split_go cur (p ++ s) = split_go (reverse p ++ cur) s.
Proof.
  revert cur. induction p as [|c p IH]; intros cur Hp; [done|].
  apply Forall_cons in Hp as [Hc Hp]. simpl. rewrite Hc, IH by done.
  by rewrite reverse_cons, <-app_assoc.
Qed.

(** Splitting the joined words gives the words back. *)
Lemma split_join (parts : list text) :
  Forall is_word_part parts → split (join [32] parts) = parts.
Proof.
  unfold split. induction parts as [|p parts IH]; intros Hparts; [done|].
  apply Forall_cons in Hparts as [[Hne Hp] Hparts].
  destruct parts as [|q parts].
  - simpl. rewrite <-(app_nil_r p), split_go_word, app_nil_r by done. simpl.
    destruct (reverse p) as [|x r] eqn:Hr.
    + apply (f_equal length) in Hr. rewrite length_reverse in Hr. by destruct p.
    + by rewrite <-Hr, reverse_involutive, app_nil_r.
  - change (join [32] (p :: q :: parts)) with (p ++ [32] ++ join [32] (q :: parts)).
    rewrite split_go_word, app_nil_r by done. simpl.
    destruct (reverse p) as [|x r] eqn:Hr.
    + apply (f_equal length) in Hr. rewrite length_reverse in Hr. by destruct p.
    + rewrite <-Hr, reverse_involutive. f_equal. by apply IH.
Qed.

Lemma normalize_ws_idem (t : text) : normalize_ws (normalize_ws t) = normalize_ws t.
Proof.
  unfold normalize_ws. rewrite split_join; [done|].
  apply split_go_parts. constructor.
Qed.

Lemma join_last (parts : list text) :
  Forall is_word_part parts → parts ≠ [] →
  ∃ n c, join [32] parts = n ++ [c] ∧ is_space c = false.
Proof.
  induction parts as [|p parts IH]; intros Hparts Hne; [done|].
  apply Forall_cons in Hparts as [[Hp Hw] Hparts].
  destruct parts as [|q parts].
  - simpl. destruct p as [|c p _] using rev_ind; [done|].
    exists p, c. split; [done|]. by apply Forall_app in Hw as [_ [? _]%Forall_cons].
  - destruct (IH Hparts) as (n & c & Hn & Hc); [done|].
    exists (p ++ [32] ++ n), c. split; [|done].
    change (join [32] (p :: q :: parts)) with (p ++ [32] ++ join [32] (q :: parts)).
    rewrite Hn. by rewrite <-!app_assoc.
Qed.

Lemma strip_normalize_ws (t : text) : strip (normalize_ws t) = normalize_ws t.
Proof.
  pose proof (split_go_parts [] t (Forall_nil_2 _)) as Hparts.
  unfold normalize_ws, split.
  destruct (split_go [] t) as [|p parts] eqn:Hs; [done|].
  destruct (join_last (p :: parts) Hparts) as (n & c & Hn & Hc); [done|].
  assert (Hl : lstrip (join [32] (p :: parts)) = join [32] (p :: parts)).
  { apply Forall_cons in Hparts as [[Hp Hw] _].
    destruct p as [|x p]; [done|]. apply Forall_cons in Hw as [Hx _].
    destruct parts; simpl; by rewrite Hx. }
  unfold strip. rewrite Hl, Hn, rstrip_snoc, Hc. done.
Qed.

Lemma length_join_split_go (cur s : text) :
  (length (join [32%N] (split_go cur s)) ≤ length cur + length s)%nat.
Proof.
  revert cur. induction s as [|c s IH]; intros cur; simpl.
  - destruct cur; simpl; [lia|]. rewrite length_reverse. simpl. lia.
  - destruct (is_space c).
    + destruct cur as [|x cur].
      * specialize (IH []). simpl in IH. lia.
      * specialize (IH []). simpl in IH.
        destruct (split_go [] s) as [|q parts]; cbn [join].
        -- rewrite length_reverse. simpl. lia.
        -- rewrite !length_app, length_reverse. simpl in *. lia.
    + specialize (IH (c :: cur)). simpl in IH. lia.
Qed.

(** Normalization never lengthens the stripped text. *)
Lemma length_normalize_ws (t : text) :
  (length (normalize_ws t) ≤ length (strip t))%nat.
Proof.
  unfold normalize_ws. rewrite <-split_strip. unfold split.
  pose proof (length_join_split_go [] (strip t)) as Hl. simpl in Hl. done.
Qed.

(** ** More on the validator *)

Section ValidatorMore.
Context `{Unicode}.

Lemma search_from_here (ic : bool) (r : regex) (prev : option N) (l1 s : text) :
  (∀ p, accepts ic r p s (fun _ _ => true) = true) →
  search_from ic r prev (l1 ++ s) = true.
Proof.
  intros Hacc. revert prev. induction l1 as [|c l1 IH]; intros prev; simpl.
  - destruct s; simpl; by rewrite Hacc.
  - rewrite IH. apply orb_true_r.
Qed.

Lemma re_search_digit (s : text) (c : N) :
  c ∈ s → is_decimal c = true → re_search false Dig s = true.
Proof.
  intros (l1 & l2 & ->)%list_elem_of_split Hd.
  apply search_from_here. intros p. simpl. by rewrite Hd.
Qed.

Lemma re_search_at_sign (s : text) :
  64 ∈ s → re_search true url_or_email s = true.
Proof.
  intros (l1 & l2 & ->)%list_elem_of_split.
  apply search_from_here. intros p.
  unfold url_or_email.
  change (accepts true (Alt ?a (Alt ?b ?c)) p ?s ?k)
    with (accepts true a p s k || (accepts true b p s k || accepts true c p s k)).
  assert (Hat : accepts true (Word (lit "@")) p (64 :: l2) (fun _ _ => true) = true)
    by done.
  rewrite Hat. by rewrite !orb_true_r.
Qed.

Lemma content_rejects_digit (cap : regex) (places months theater : list text)
    (s : text) (c : N) :
  c ∈ s → is_decimal c = true → content_rejects cap places months theater s = true.
Proof.
  intros Hc Hd. unfold content_rejects. by rewrite (re_search_digit s c).
Qed.

Lemma content_rejects_at_sign (cap : regex) (places months theater : list text)
    (s : text) :
  64 ∈ s → content_rejects cap places months theater s = true.
Proof.
  intros Hc. unfold content_rejects. rewrite (re_search_at_sign s Hc).
  by rewrite !orb_true_r.
Qed.

End ValidatorMore.

(** X1.  A text that contains a decimal digit is rejected by the validator
    of the importer and by the copy in the two harvesters, whatever else it
    contains.  (The digit is a character that is not whitespace, as every
    decimal digit is.) *)
Theorem digit_is_rejected `{Unicode} (t : text) (c : N) :
  c ∈ t → is_decimal c = true → is_space c = false →
  is_valid_quotation t = false ∧ is_valid_quotation_ru t = false.
Proof.
  intros Hc Hd Hs.
  pose proof (elem_of_normalize_ws t c Hc Hs) as Hn.
  unfold is_valid_quotation, is_valid_quotation_ru, rejected_by_content.
  destruct (bool_decide (t = []) || (length (strip t) <? 20)%nat); [done|].
  by rewrite !(content_rejects_digit _ _ _ _ _ c Hn Hd).
Qed.

Lemma digit_is_rejected_witness :
  is_valid_quotation (lit "Meet me at the old bridge at 5 sharp, my friend.") = false.
Proof.
  refine (proj1 (digit_is_rejected
            (lit "Meet me at the old bridge at 5 sharp, my friend.") 53 _ eq_refl eq_refl)).
  vm_compute. repeat (first [apply list_elem_of_here | apply list_elem_of_further]).
Defined.

(** X2.  A text that contains the character '@' is rejected by both copies
    of the validator: the e-mail rule needs nothing but the character. *)
Theorem at_sign_is_rejected `{Unicode} (t : text) :
  64 ∈ t → is_valid_quotation t = false ∧ is_valid_quotation_ru t = false.
Proof.
  intros Hc.
  pose proof (elem_of_normalize_ws t 64 Hc eq_refl) as Hn.
  unfold is_valid_quotation, is_valid_quotation_ru, rejected_by_content.
  destruct (bool_decide (t = []) || (length (strip t) <? 20)%nat); [done|].
  by rewrite !(content_rejects_at_sign _ _ _ _ _ Hn).
Qed.

Lemma at_sign_is_rejected_witness :
  is_valid_quotation (lit "write to the author @ the usual place please") = false.
Proof.
  refine (proj1 (at_sign_is_rejected
            (lit "write to the author @ the usual place please") _)).
  vm_compute. repeat (first [apply list_elem_of_here | apply list_elem_of_further]).
Defined.

(** X3.  The validators do not see leading and trailing whitespace: a text
    and its stripped form get the same verdict. *)
Theorem is_valid_ignores_outer_whitespace `{Unicode} (t : text) :
  is_valid_quotation (strip t) = is_valid_quotation t
  ∧ is_valid_quotation_ru (strip t) = is_valid_quotation_ru t.
Proof.
  unfold is_valid_quotation, is_valid_quotation_ru, normalize_ws.
  rewrite strip_idem, split_strip.
  destruct (decide (strip t = [])) as [Hs|Hs].
  - rewrite Hs. simpl. by rewrite orb_true_r.
  - assert (Ht : t ≠ []) by (by intros ->).
    by rewrite !bool_decide_eq_false_2.
Qed.

(** X4.  Whitespace normalization changes the verdict only through the
    length rule: for a text that is still at least 20 characters long once
    its whitespace is collapsed, the text and its normalized form get the
    same verdict. *)
Theorem is_valid_stable_under_normalization `{Unicode} (t : text) :
  (20 ≤ length (normalize_ws t))%nat →
  is_valid_quotation (normalize_ws t) = is_valid_quotation t
  ∧ is_valid_quotation_ru (normalize_ws t) = is_valid_quotation_ru t.
Proof.
  intros Hlen.
  pose proof (length_normalize_ws t) as Hle.
  unfold is_valid_quotation, is_valid_quotation_ru.
  rewrite strip_normalize_ws, normalize_ws_idem.
  assert (Hn : normalize_ws t ≠ []) by (intros Hn; rewrite Hn in Hlen; simpl in Hlen; lia).
  assert (Ht : t ≠ []) by (intros ->; by apply Hn).
  rewrite !bool_decide_eq_false_2 by done. simpl.
  replace (length (normalize_ws t) <? 20)%nat with false
    by (symmetry; apply Nat.ltb_ge; lia).
  replace (length (strip t) <? 20)%nat with false
    by (symmetry; apply Nat.ltb_ge; lia).
  done.
Qed.

Lemma is_valid_stable_under_normalization_witness :
  let t := lit "  Time   heals all wounds,  they say.  " in
  is_valid_quotation (normalize_ws t) = is_valid_quotation t.
Proof.
  intros t. refine (proj1 (is_valid_stable_under_normalization t _)).
  vm_compute. lia.
Defined.
(** ** More on the merger *)

Section MergeMore.
Context `{Unicode}.

Lemma reached_get_text (qs : list quote) (q : quote) :
  q ∈ reached qs → is_Some (get_text q).
Proof.
  induction qs as [|x qs IH]; simpl; [by intros ?%elem_of_nil|].
  destruct (get_text x) eqn:Hx; [|by intros ?%elem_of_nil].
  intros [->|Hq]%elem_of_cons; [by rewrite Hx|by apply IH].
Qed.

Lemma reached_files_get_text (inputs : list file_content) (q : quote) :
  q ∈ concat (reached_file <$> inputs) → is_Some (get_text q).
Proof.
  intros (l & Hq & Hl)%elem_of_concat.
  apply list_elem_of_fmap in Hl as (f & -> & _).
  destruct f; simpl in Hq; try by apply elem_of_nil in Hq.
  by eapply reached_get_text.
Qed.

(** The facts about the list [merged] returns that the statements below
    start from. *)
Lemma merged_facts (inputs : list file_content) :
  let P := concat (reached_file <$> inputs) in
  let out := merged inputs in
  out `sublist_of` P
  ∧ NoDup (code_key <$> out)
  ∧ (∀ q, q ∈ out → code_key q ≠ [] ∧ is_Some (get_text q))
  ∧ (∀ k, k ∈ code_key <$> out ↔ k ≠ [] ∧ k ∈ code_key <$> P).
Proof.
  intros P out.
  destruct (merge_files_inv inputs [] _ merge_inv_init)
    as [Hsub Hnd _ Hne Hfirst].
  simpl in *. fold P in Hsub, Hfirst. fold out in Hsub, Hnd, Hne, Hfirst.
  split_and!; [done|done| |].
  - intros q Hq. split; [by apply Hne|].
    apply (reached_files_get_text inputs). by eapply elem_of_sublist.
  - intros k. split.
    + intros (q & -> & Hq)%list_elem_of_fmap. split; [by apply Hne|].
      apply list_elem_of_fmap. exists q. split; [done|]. by eapply elem_of_sublist.
    + intros [Hk (q & -> & Hq)%list_elem_of_fmap].
      destruct (first_with_key P q Hq) as (l1 & q' & l2 & HP & Hkq & Hfresh).
      apply list_elem_of_fmap. exists q'. split; [done|].
      apply (Hfirst l1 q' l2 HP); by rewrite Hkq.
Qed.

(** A list of records with string texts and distinct, non-empty, unseen
    keys passes through the merge loop unchanged. *)
Lemma merge_records_fresh (l : list quote) (st : merge_state) :
  NoDup (code_key <$> l) →
  (∀ q, q ∈ l → code_key q ≠ [] ∧ is_Some (get_text q) ∧ code_key q ∉ seen_texts st) →
  all_quotes (merge_records l st) = all_quotes st ++ l.
Proof.
  revert st. induction l as [|q l IH]; intros st Hnd Hl; simpl.
  - by rewrite app_nil_r.
  - rewrite fmap_cons in Hnd. apply NoDup_cons in Hnd as [Hq Hnd].
    destruct (Hl q) as (Hk & [t Ht] & Hseen); [by apply elem_of_cons; left|].
    unfold merge_step. rewrite (merge_key_reached q t Ht). simpl.
    rewrite bool_decide_eq_true_2 by done.
    rewrite bool_decide_eq_true_2 by done. simpl.
    rewrite IH; simpl.
    + by rewrite <-app_assoc.
    + done.
    + intros q' Hq'. destruct (Hl q') as (Hk' & Ht' & Hseen');
        [by apply elem_of_cons; right|].
      split_and!; [done|done|].
      rewrite elem_of_union, elem_of_singleton. intros [Heq|?]; [|done].
      apply Hq. rewrite <-Heq. apply list_elem_of_fmap. eauto.
Qed.

End MergeMore.

(** X5.  Merging is stable: merging the merged corpus once more, as a file
    of its own, gives the corpus back, record for record. *)
Theorem merging_the_corpus_again_is_stable `{Unicode} (inputs : list file_content) :
  merged [Json (merged inputs)] = merged inputs.
Proof.
  destruct (merged_facts inputs) as (_ & Hnd & Hout & _).
  unfold merged at 1. simpl.
  rewrite merge_records_fresh; [done|done|].
  intros q Hq. destruct (Hout q Hq) as [Hk Ht].
  split_and!; [done|done|]. simpl. apply not_elem_of_empty.
Qed.

(** X6.  Which quotations survive does not depend on the order in which
    the files are read: for two orders of the same files the retained keys
    are the same, each once.  (Which record represents a key does depend on
    the order.) *)
Theorem merged_keys_independent_of_file_order `{Unicode}
    (inputs inputs' : list file_content) :
  inputs ≡ₚ inputs' →
  (code_key <$> merged inputs) ≡ₚ (code_key <$> merged inputs').
Proof.
  intros Hperm.
  destruct (merged_facts inputs) as (_ & Hnd & _ & Hk).
  destruct (merged_facts inputs') as (_ & Hnd' & _ & Hk').
  apply NoDup_Permutation; [done|done|].
  intros k. rewrite Hk, Hk'.
  assert (Hsame : ∀ q, q ∈ concat (reached_file <$> inputs)
                       ↔ q ∈ concat (reached_file <$> inputs')).
  { intros q. rewrite !elem_of_concat. split; intros (l & Hq & Hl); exists l;
      (split; [done|]); revert Hl; rewrite !list_elem_of_fmap;
      intros (f & -> & Hf); exists f; (split; [done|]).
    - by rewrite <-Hperm.
    - by rewrite Hperm. }
  rewrite !list_elem_of_fmap. split; intros [Hne (q & -> & Hq)];
    (split; [done|]); exists q; (split; [done|]); by apply Hsame.
Qed.

Lemma merged_keys_independent_of_file_order_witness :
  (code_key <$> merged [Json [Samples.heals_en]; Json [Samples.ice; Samples.heals_ru]])
  ≡ₚ (code_key <$> merged [Json [Samples.ice; Samples.heals_ru]; Json [Samples.heals_en]]).
Proof.
  apply merged_keys_independent_of_file_order. apply Permutation_swap.
Defined.

(** ** Files: writing and looking up *)

Lemma text_eqb_true (a b : text) : text_eqb a b = true ↔ a = b.
Proof. unfold text_eqb. apply bool_decide_eq_true. Qed.

Lemma text_eqb_refl (a : text) : text_eqb a a = true.
Proof. by apply text_eqb_true. Qed.

Lemma text_eqb_false (a b : text) : a ≠ b → text_eqb a b = false.
Proof. intros Hne. unfold text_eqb. by apply bool_decide_eq_false. Qed.

Lemma find_replace_file_eq (name : text) (c : file_content)
    (l : list (text * file_content)) :
  find (fun f => text_eqb (fst f) name) (replace_file name c l) = Some (name, c).
Proof.
  induction l as [|f l IH]; cbn [replace_file find fst].
  - by rewrite text_eqb_refl.
  - destruct (text_eqb (fst f) name) eqn:Hf; cbn [find fst].
    + by rewrite text_eqb_refl.
    + by rewrite Hf.
Qed.

Lemma find_replace_file_ne (name name' : text) (c : file_content)
    (l : list (text * file_content)) :
  name' ≠ name →
  find (fun f => text_eqb (fst f) name') (replace_file name c l)
  = find (fun f => text_eqb (fst f) name') l.
Proof.
  intros Hne. induction l as [|f l IH]; cbn [replace_file find fst].
  - by rewrite text_eqb_false.
  - destruct (text_eqb (fst f) name) eqn:Hf; cbn [find fst].
    + apply text_eqb_true in Hf. rewrite Hf.
      by rewrite !text_eqb_false.
    + by rewrite IH.
Qed.

(** Writing a file whose first entry already holds the content changes
    nothing. *)
Lemma replace_file_same (name : text) (c : file_content)
    (l : list (text * file_content)) :
  find (fun f => text_eqb (fst f) name) l = Some (name, c) →
  replace_file name c l = l.
Proof.
  induction l as [|f l IH]; cbn [replace_file find fst]; [done|].
  destruct (text_eqb (fst f) name) eqn:Hf.
  - by intros [= ->].
  - intros Hfind. by rewrite IH.
Qed.

Section MergeFiles.
Context `{Unicode}.



(** A file that the pattern does not match, or that is excluded, is not
    among the merge inputs: writing it leaves them as they are. *)
Lemma merge_inputs_replace (pattern : text) (exclude : list text) (name : text)
    (c : file_content) (l : list (text * file_content)) (w w' : bool) :
  wildcard pattern name = false ∨ name ∈ exclude →
  merge_inputs pattern exclude {| files := replace_file name c l; writable := w |}
  = merge_inputs pattern exclude {| files := l; writable := w' |}.
Proof.
  intros Hout. unfold merge_inputs, glob. cbn [files]. f_equal.
  assert (Hdrop : ∀ x : file_content,
    filter (fun f : text * file_content => fst f ∉ exclude)
      (filter (fun f : text * file_content =>
                 wildcard pattern (fst f) = true
                 ∧ (head (fst f) = Some 46 → head pattern = Some 46))
              [(name, x)]) = []).
  { intros x. rewrite filter_cons. cbn [fst].
    destruct (decide _) as [[Hw _]|_]; [|done].
    rewrite filter_cons. cbn [fst]. destruct (decide _) as [Hex|_]; [|done].
    destruct Hout; [congruence|done]. }
  induction l as [|f l IH]; cbn [replace_file].
  - apply Hdrop.
  - destruct (text_eqb (fst f) name) eqn:Hf.
    + apply text_eqb_true in Hf. destruct f as [n x]. cbn [fst] in Hf. subst n.
      change ((name, c) :: l) with ([(name, c)] ++ l).
      change ((name, x) :: l) with ([(name, x)] ++ l).
      rewrite !filter_app, !Hdrop. done.
    + rewrite !(filter_cons _ f). destruct (decide _); [|done].
      rewrite !(filter_cons _ f). destruct (decide _); [|done].
      by rewrite IH.
Qed.

Lemma merge_inputs_write (pattern : text) (exclude : list text) (name : text)
    (c : file_content) (dir dir' : filesystem) :
  wildcard pattern name = false ∨ name ∈ exclude →
  write_file name c dir = Some dir' →
  merge_inputs pattern exclude dir' = merge_inputs pattern exclude dir.
Proof.
  intros Hout. unfold write_file. destruct (writable dir) eqn:Hw; intros [= <-].
  rewrite (merge_inputs_replace _ _ _ _ _ _ (writable dir)) by done.
  by destruct dir.
Qed.

End MergeFiles.

(** ** More on the orchestrator *)

Section MergeStageMore.
Context `{Unicode}.

Lemma corpus_names_differ : ALL_QUOTES_json ≠ ALL_QUOTES_txt.
Proof. vm_compute. discriminate. Qed.

(** After a successful merge the same call finds the same inputs, returns
    the same list and rewrites the two files with what they hold. *)
Lemma merge_quotes_again (dir dir' : filesystem) (out : list quote) :
  merge_quotes (lit "*.json") (Some merge_exclude) ALL_QUOTES_json ALL_QUOTES_txt dir
    = Some (out, dir') →
  merge_quotes (lit "*.json") (Some merge_exclude) ALL_QUOTES_json ALL_QUOTES_txt dir'
    = Some (out, dir').
Proof.
  intros Hm. pose proof Hm as Hm0. revert Hm.
  unfold merge_quotes. cbv zeta.
  change (default [ALL_QUOTES_json; ALL_QUOTES_json] (Some merge_exclude))
    with merge_exclude.
  destruct (merged (merge_inputs (lit "*.json") merge_exclude dir)) as [|q qs] eqn:Hout.
  { intros [= <- <-]. by rewrite Hout. }
  unfold write_file. destruct (writable dir) eqn:Hw; [|done]. cbn [mbind option_bind].
  cbn [writable]. intros [= <- <-]. cbn [files writable].
  rewrite (merge_inputs_replace _ _ ALL_QUOTES_txt _ _ _ true)
    by (left; by vm_compute).
  rewrite (merge_inputs_replace _ _ ALL_QUOTES_json _ _ _ (writable dir))
    by (right; unfold merge_exclude; apply elem_of_cons; by left).
  replace {| files := files dir; writable := writable dir |} with dir by by destruct dir.
  rewrite Hout. cbn [mbind option_bind writable files].
  rewrite (replace_file_same ALL_QUOTES_json).
  2:{ rewrite find_replace_file_ne by apply corpus_names_differ.
      apply find_replace_file_eq. }
  rewrite (replace_file_same ALL_QUOTES_txt) by apply find_replace_file_eq.
  done.
Qed.

End MergeStageMore.

(** X8.  The merge stage can be repeated: run again on the state it left,
    it gives the same verdict and leaves the directory, the store and the
    statistics as they are.  Its own output files are never among its
    inputs. *)
Theorem merge_stage_can_be_repeated `{Unicode} (p : pipeline) (s : state) :
  let r1 := run_merge_stage p s in
  let r2 := run_merge_stage p r1.2 in
  r2.1 = r1.1 ∧ fs r2.2 = fs r1.2 ∧ db r2.2 = db r1.2 ∧ stats r2.2 = stats r1.2.
Proof.
  unfold run_merge_stage. cbv zeta.
  destruct (skip_merge p) eqn:Hskip; [done|].
  cbn [logged fs].
  destruct (merge_quotes (lit "*.json") (Some merge_exclude) ALL_QUOTES_json
              ALL_QUOTES_txt (fs s)) as [[out dir']|] eqn:Hm; cbn [fst snd fs logged].
  - by rewrite (merge_quotes_again _ _ _ Hm).
  - by rewrite Hm.
Qed.

Section PipelineMore.
Context `{Unicode}.
Variable extract_quotes_count : text → Z.

Local Abbreviation run_harvest_script := (run_harvest_script extract_quotes_count).
Local Abbreviation harvest_one := (harvest_one extract_quotes_count).
Local Abbreviation run_harvest_stage := (run_harvest_stage extract_quotes_count).
Local Abbreviation after_harvest := (after_harvest extract_quotes_count).
Local Abbreviation main := (main extract_quotes_count).

Lemma harvest_one_outcomes (s : state) (sc : script) :
  outcomes (st_harvest (stats (harvest_one s sc))) = S (outcomes (st_harvest (stats s)))
  ∧ h_total (st_harvest (stats (harvest_one s sc))) = h_total (st_harvest (stats s)).
Proof.
  unfold harvest_one, outcomes.
  destruct (run_harvest_script sc (fs s)) as [[[[[ok msg] n] errs] dir'] lines].
  destruct ok; [simpl; split; lia|].
  destruct (contains (lit "Acceptable") msg); simpl; split; lia.
Qed.

Lemma harvest_loop_outcomes (scripts : list script) (s : state) :
  outcomes (st_harvest (stats (foldl harvest_one s scripts)))
    = (outcomes (st_harvest (stats s)) + length scripts)%nat
  ∧ h_total (st_harvest (stats (foldl harvest_one s scripts)))
    = h_total (st_harvest (stats s)).
Proof.
  revert s. induction scripts as [|sc scripts IH]; intros s; cbn [foldl length].
  - split; [lia|done].
  - destruct (IH (harvest_one s sc)) as [-> ->].
    destruct (harvest_one_outcomes s sc) as [-> ->]. split; [lia|done].
Qed.

End PipelineMore.
(** X9.  The harvest stage classifies every script exactly once: after
    the stage [total] is the number of scripts and the three counters
    [success], [failed] and [skipped] add up to it; and the stage reports
    success exactly when at least one script succeeded. *)
Theorem harvest_stage_counts_every_script `{Unicode} (extract_quotes_count : text → Z)
    (p : pipeline) (scripts : list script) (dir : filesystem) (store : database) :
  skip_harvest p = false →
  let r := run_harvest_stage extract_quotes_count p scripts (start dir store) in
  let h := st_harvest (stats r.2) in
  h_total h = length scripts
  ∧ (h_success h + h_failed h + h_skipped h)%nat = length scripts
  ∧ (r.1 = true ↔ (0 < h_success h)%nat).
Proof.
  intros Hskip. unfold run_harvest_stage. rewrite Hskip.
  destruct scripts as [|sc scripts].
  - simpl. split_and!; [done|done|]. split; [done|lia].
  - set (s1 := with_harvest _ _).
    destruct (harvest_loop_outcomes extract_quotes_count (sc :: scripts) s1) as [Ho Ht].
    cbn [fst snd]. unfold outcomes in Ho.
    split_and!.
    + rewrite Ht. done.
    + rewrite Ho. subst s1. simpl. done.
    + apply bool_decide_eq_true.
Qed.

Lemma harvest_stage_counts_every_script_witness :
  let r := run_harvest_stage Samples.no_count Samples.all_stages
             [Samples.script_ok; Samples.script_timeout_empty]
             (start Samples.empty_dir Samples.empty_store) in
  (h_success (st_harvest (stats r.2)) + h_failed (st_harvest (stats r.2))
   + h_skipped (st_harvest (stats r.2)))%nat = 2%nat.
Proof.
  intros r.
  destruct (harvest_stage_counts_every_script Samples.no_count Samples.all_stages
              [Samples.script_ok; Samples.script_timeout_empty]
              Samples.empty_dir Samples.empty_store eq_refl) as (_ & Hsum & _).
  exact Hsum.
Defined.

Section Classification.
Context `{Unicode}.

Lemma contains_after_error_prefix (x : text) :
  contains (lit "Acceptable") (lit "Error: " ++ x) = contains (lit "Acceptable") x.
Proof. reflexivity. Qed.

End Classification.

(** X10.  How a script that ran to its end is classified.  Exit code 0 is
    a success whatever the output says.  With another exit code the script
    is skipped (an acceptable failure) when its output carries one of the
    acceptable signatures or when the first 200 characters of its output
    contain the word Acceptable; otherwise it is failed.  Exactly one of
    the three counters goes up, by one. *)
Theorem finished_script_classification `{Unicode} (extract_quotes_count : text → Z)
    (s : state) (sc : script) (returncode : Z) (stdout stderr : text)
    (dir' : filesystem) :
  script_run sc 3600%Z (fs s) = (Exited returncode stdout stderr, dir') →
  let full_output := stdout ++ stderr in
  let h := st_harvest (stats s) in
  let h' := st_harvest (stats (harvest_one extract_quotes_count s sc)) in
  let acceptable := is_harvest_error_acceptable full_output
                    || contains (lit "Acceptable") (take 200 full_output) in
  (h_success h', h_skipped h', h_failed h') =
    if (returncode =? 0)%Z then (S (h_success h), h_skipped h, h_failed h)
    else if acceptable then (h_success h, S (h_skipped h), h_failed h)
    else (h_success h, h_skipped h, S (h_failed h)).
Proof.
  intros Hrun full_output h h' acceptable.
  subst h' acceptable. unfold harvest_one, run_harvest_script, script_timeout.
  rewrite Hrun. fold full_output.
  destruct (returncode =? 0)%Z; [done|].
  destruct (is_harvest_error_acceptable full_output); [done|].
  cbn [orb]. rewrite contains_after_error_prefix.
  by destruct (contains (lit "Acceptable") (take 200 full_output)).
Qed.

Lemma finished_script_classification_witness :
  h_success (st_harvest (stats
    (harvest_one Samples.no_count (start Samples.empty_dir Samples.empty_store)
       Samples.script_ok))) = 1%nat.
Proof.
  pose proof (finished_script_classification Samples.no_count
                (start Samples.empty_dir Samples.empty_store) Samples.script_ok
                0 (lit "Saved 1 quotes to a.json") [] _ eq_refl) as Hc.
  exact (f_equal (fun t : nat * nat * nat => t.1.1) Hc).
Defined.

Section StoreUntouched.
Context `{Unicode}.

Lemma run_import_stage_skipped (p : pipeline) (s : state) :
  skip_import p = true → db (run_import_stage p s).2 = db s.
Proof. intros Hskip. unfold run_import_stage. by rewrite Hskip. Qed.

End StoreUntouched.

(** X11.  Only the import stage touches the store.  In the statistics-only
    mode, with the import stage skipped, or when the merge stage fails, the
    store after the run is the store before it, also when the run was
    asked to clear it. *)
Theorem store_untouched_without_import `{Unicode} (extract_quotes_count : text → Z)
    (p : pipeline) (scripts : list script) (dir : filesystem) (store : database) :
  stats_only p = true ∨ skip_import p = true
  ∨ merge_failed p (after_harvest extract_quotes_count p scripts (start dir store)) →
  db (main extract_quotes_count p scripts dir store).2 = store.
Proof.
  intros Hcase. unfold main, run.
  destruct (stats_only p) eqn:Hso; [done|].
  set (s1 := after_harvest extract_quotes_count p scripts (start dir store)) in *.
  destruct (after_harvest_facts extract_quotes_count p scripts (start dir store))
    as (Hdb1 & _). fold s1 in Hdb1. simpl in Hdb1.
  destruct (run_merge_stage_facts p s1) as (Hdb2 & _ & Hm).
  destruct (run_merge_stage p s1) as [ok s2] eqn:Hmerge. simpl in Hdb2, Hm.
  destruct ok; simpl.
  - destruct Hcase as [?|[Hsi|Hmf]]; [done| |].
    + pose proof (run_import_stage_skipped p s2 Hsi) as Hdb3.
      destruct (run_import_stage p s2) as [[] s3]; simpl in *; congruence.
    + apply Hm in Hmf. done.
  - congruence.
Qed.

Lemma store_untouched_without_import_witness :
  db (main Samples.no_count
        {| skip_harvest := false; skip_merge := false; skip_import := true;
           clear_db := true; stats_only := false |}
        [Samples.script_ok] Samples.empty_dir
        {| db_url_set := true; reachable := true; table := [Samples.ice_row] |}).2
  = {| db_url_set := true; reachable := true; table := [Samples.ice_row] |}.
Proof.
  apply store_untouched_without_import. right. left. reflexivity.
Defined.

(** ** More on the importer *)

Lemma varchar_bound (n : nat) (v v' : sqlval) :
  varchar n v = Some v' → (sql_length v' ≤ n)%nat.
Proof.
  unfold varchar. destruct v as [s|]; [|intros [= <-]; simpl; lia].
  destruct (length s <=? n)%nat eqn:Hlen.
  - intros [= <-]. simpl. by apply Nat.leb_le.
  - destruct (forallb (N.eqb 32) (drop n s)); [|done].
    intros [= <-]. simpl. rewrite length_take. lia.
Qed.

Section ImportMore.
Context `{Unicode}.

Lemma import_quote_handled (st : import_stats * connection) (q : quote) :
  handled (import_quote st q).1 = S (handled st.1)
  ∧ loaded (import_quote st q).1 = loaded st.1.
Proof.
  destruct st as [s c]. unfold handled. simpl.
  destruct (import_body c q); simpl; split; lia.
Qed.

Lemma import_loop_handled (qs : list quote) (st : import_stats * connection) :
  handled (foldl import_quote st qs).1 = (handled st.1 + length qs)%nat
  ∧ loaded (foldl import_quote st qs).1 = loaded st.1.
Proof.
  revert st. induction qs as [|q qs IH]; intros st; cbn [foldl length].
  - split; [lia|done].
  - destruct (IH (import_quote st q)) as [-> ->].
    destruct (import_quote_handled st q) as [-> ->]. split; [lia|done].
Qed.

Lemma import_body_inserted_valid (c c' : connection) (q : quote) :
  import_body c q = Inserted c' →
  ∃ t0, get_text q = Some t0
        ∧ strip t0 ≠ []
        ∧ is_valid_quotation (strip t0) = true
        ∧ insert_quotation (strip t0) (get_lang q) (get_author q) (get_source q)
            [lit "general"] c = Some c'.
Proof.
  unfold import_body. intros Hb.
  destruct (get_text q) as [t0|]; [|done]. exists t0.
  case_bool_decide as Hne; [done|].
  destruct (is_valid_quotation (strip t0)) eqn:Hv; [|done]. simpl in Hb.
  split_and!; [done|done|done|].
  repeat case_match; simplify_eq; done.
Qed.

Lemma inserted_row (qs : list quote) (c c' : connection) (q : quote) :
  q ∈ qs → import_body c q = Inserted c' →
  ∃ r, c' = {| committed := committed c; current := current c ++ [r] |}
       ∧ imported_from qs r.
Proof.
  intros Hq Hb.
  apply import_body_inserted_valid in Hb as (t0 & Ht & Hne & Hv & Hins).
  unfold insert_quotation in Hins.
  destruct (_ && _ && _ && _ && _); [|done].
  destruct (varchar 10 (get_lang q)) as [[l|]|] eqn:Hl; simpl in Hins; try done.
  destruct (varchar 255 (get_author q)) as [a|] eqn:Ha; simpl in Hins; try done.
  destruct (varchar 500 (get_source q)) as [s|] eqn:Hs; simpl in Hins; try done.
  destruct (existsb _ (current c)); simplify_eq.
  eexists. split; [done|].
  exists q, t0. simpl. split_and!; done.
Qed.

Lemma import_quote_rows_from (T0 : list row) (qs : list quote)
    (st : import_stats * connection) (q : quote) :
  q ∈ qs → rows_from T0 qs st.2 → rows_from T0 qs (import_quote st q).2.
Proof.
  destruct st as [s c]. simpl. intros Hq Hinv.
  destruct (import_body c q) as [| |c'] eqn:Hb; simpl.
  - intros r [Hr|Hr]; apply Hinv; by left.
  - done.
  - destruct (inserted_row qs c c' q Hq Hb) as (r0 & -> & Hr0).
    assert (Hnew : ∀ r, r ∈ current c ++ [r0] → r ∈ T0 ∨ imported_from qs r).
    { intros r [Hr| ->%list_elem_of_singleton]%elem_of_app; [|by right].
      apply Hinv. by right. }
    case_match; simpl; intros r [Hr|Hr]; auto.
Qed.

Lemma import_loop_rows_from (T0 : list row) (qs qs' : list quote)
    (st : import_stats * connection) :
  (∀ q, q ∈ qs' → q ∈ qs) → rows_from T0 qs st.2 →
  rows_from T0 qs (foldl import_quote st qs').2.
Proof.
  revert st. induction qs' as [|q qs' IH]; intros st Hsub Hinv; cbn [foldl]; [done|].
  apply IH.
  - intros q' Hq'. apply Hsub. by apply elem_of_cons; right.
  - apply import_quote_rows_from; [|done]. apply Hsub. by apply elem_of_cons; left.
Qed.

Lemma import_quote_keeps (T0 : list row) (st : import_stats * connection) (q : quote) :
  keeps T0 st.2 → keeps T0 (import_quote st q).2.
Proof.
  destruct st as [s c]. simpl. intros [H0 H1].
  destruct (import_body c q) as [| |c'] eqn:Hb; simpl.
  - by split.
  - by split.
  - apply import_body_inserted in Hb as (t0 & _ & Hins).
    apply insert_quotation_spec in Hins as (r & -> & _).
    case_match; simpl; split; simpl.
    + etrans; [exact H0|]. etrans; [exact H1|]. by apply prefix_app_r.
    + done.
    + done.
    + etrans; [exact H1|]. by apply prefix_app_r.
Qed.

Lemma import_loop_keeps (T0 : list row) (qs : list quote)
    (st : import_stats * connection) :
  keeps T0 st.2 → keeps T0 (foldl import_quote st qs).2.
Proof.
  revert st. induction qs as [|q qs IH]; intros st Hk; cbn [foldl]; [done|].
  by apply IH, import_quote_keeps.
Qed.

End ImportMore.

(** X13.  No record is lost from the count: whenever the importer opens
    its connection, every record of the corpus is counted exactly once, as
    saved, skipped or an error, and [loaded] is the number of records (0
    when the file could not be read). *)
Theorem import_counts_every_record `{Unicode} (input_file : text) (clear : bool)
    (dir : filesystem) (store : database) :
  is_Some (get_db_connection store) →
  let st := (import_to_postgres input_file clear dir store).1 in
  (saved st + skipped st + errors st)%nat = loaded st
  ∧ loaded st = match lookup_file input_file dir with
                | Some (Json qs) => length qs
                | _ => 0%nat
                end.
Proof.
  intros [c0 Hc]. unfold import_to_postgres. rewrite Hc.
  destruct (lookup_file input_file dir) as [[|qs|]|]; try done.
  unfold import_quotes.
  set (c1 := if clear then _ else _).
  set (s1 := {| loaded := length qs; saved := 0; skipped := 0; errors := 0 |}).
  destruct (import_loop_handled qs (s1, c1)) as [Hh Hl].
  destruct (foldl import_quote (s1, c1) qs) as [s c]. simpl in *.
  unfold handled in Hh. simpl in Hh. split; lia.
Qed.

Lemma import_counts_every_record_witness :
  let st := (import_to_postgres ALL_QUOTES_json false
               (Samples.corpus_dir [Samples.ice; Samples.long_author; Samples.ice])
               Samples.empty_store).1 in
  (saved st + skipped st + errors st)%nat = loaded st.
Proof.
  intros st.
  refine (proj1 (import_counts_every_record ALL_QUOTES_json false
                   (Samples.corpus_dir [Samples.ice; Samples.long_author; Samples.ice])
                   Samples.empty_store _)).
  eexists. reflexivity.
Defined.

(** X14.  The importer only adds rows it made from the corpus.  After a
    run on a corpus file that holds the records [qs], every row of the
    table either was in the table before, or comes from a record of [qs]:
    its text is the stripped text of the record, is not empty and passes
    the validator, its language, author and source are the record's (cut
    to their columns), it has no translation, the single tag general and
    the validated flag; and its language, author and source fit 10, 255
    and 500 characters. *)
Theorem imported_rows_come_from_the_corpus `{Unicode} (input_file : text)
    (clear : bool) (dir : filesystem) (store : database) (qs : list quote) :
  lookup_file input_file dir = Some (Json qs) →
  ∀ r, r ∈ table (import_to_postgres input_file clear dir store).2 →
       r ∈ table store
       ∨ (imported_from qs r
          ∧ (length (language_original r) ≤ 10)%nat
          ∧ (sql_length (author r) ≤ 255)%nat
          ∧ (sql_length (source_url r) ≤ 500)%nat).
Proof.
  intros Hfile r. unfold import_to_postgres. rewrite Hfile.
  destruct (get_db_connection store) as [c0|] eqn:Hc; [|by left].
  unfold get_db_connection in Hc.
  destruct (negb (db_url_set store)); [done|].
  destruct (negb (reachable store)); [done|]. injection Hc as <-.
  unfold import_quotes.
  set (c1 := if clear then _ else _).
  set (s1 := {| loaded := length qs; saved := 0; skipped := 0; errors := 0 |}).
  assert (Hinv1 : rows_from (table store) qs c1).
  { subst c1. destruct clear; simpl.
    - intros x [Hx|Hx]; by apply elem_of_nil in Hx.
    - intros x [Hx|Hx]; by left. }
  pose proof (import_loop_rows_from (table store) qs qs (s1, c1) (fun _ Hq => Hq) Hinv1)
    as Hinv.
  destruct (foldl import_quote (s1, c1) qs) as [s c]. simpl in *.
  intros Hr. destruct (Hinv r (or_intror Hr)) as [?|Hfrom]; [by left|].
  right. split; [done|].
  destruct Hfrom as (q & t0 & _ & _ & _ & _ & _ & Hl & Ha & Hs & _).
  apply varchar_bound in Hl, Ha, Hs. done.
Qed.

Lemma imported_rows_come_from_the_corpus_witness :
  Samples.ice_row ∈ table (import_to_postgres ALL_QUOTES_json true
                             (Samples.corpus_dir [Samples.ice])
                             Samples.empty_store).2
  ∧ (Samples.ice_row ∈ table Samples.empty_store
     ∨ (imported_from [Samples.ice] Samples.ice_row
        ∧ (length (language_original Samples.ice_row) ≤ 10)%nat
        ∧ (sql_length (author Samples.ice_row) ≤ 255)%nat
        ∧ (sql_length (source_url Samples.ice_row) ≤ 500)%nat)).
Proof.
  assert (Hin : Samples.ice_row ∈ table (import_to_postgres ALL_QUOTES_json true
                  (Samples.corpus_dir [Samples.ice]) Samples.empty_store).2).
  { vm_compute. apply list_elem_of_here. }
  split; [exact Hin|].
  exact (imported_rows_come_from_the_corpus ALL_QUOTES_json true
           (Samples.corpus_dir [Samples.ice]) Samples.empty_store [Samples.ice]
           eq_refl Samples.ice_row Hin).
Defined.

(** X15.  Unless it is asked to clear the table, the importer never
    removes or reorders a row: the table before the run is an initial
    segment of the table after it. *)
Theorem import_keeps_existing_rows `{Unicode} (input_file : text)
    (dir : filesystem) (store : database) :
  table store `prefix_of` table (import_to_postgres input_file false dir store).2.
Proof.
  unfold import_to_postgres.
  destruct (lookup_file input_file dir) as [[|qs|]|]; try done.
  destruct (get_db_connection store) as [c0|] eqn:Hc; [|done].
  unfold get_db_connection in Hc.
  destruct (negb (db_url_set store)); [done|].
  destruct (negb (reachable store)); [done|]. injection Hc as <-.
  unfold import_quotes.
  set (s1 := {| loaded := length qs; saved := 0; skipped := 0; errors := 0 |}).
  set (c1 := {| committed := table store; current := table store |}).
  pose proof (import_loop_keeps (table store) qs (s1, c1)) as Hk.
  destruct (foldl import_quote (s1, c1) qs) as [s c]. simpl in *.
  destruct Hk as [H0 H1]; [by split|]. by etrans.
Qed.
(** X16.  When a first run without clearing the table counted no error, a
    second run on the same corpus and the store the first run left saves
    nothing and leaves the store as it is. *)
Theorem repeated_import_saves_nothing `{Unicode} (input_file : text)
    (dir : filesystem) (store : database) :
  let first := import_to_postgres input_file false dir store in
  let second := import_to_postgres input_file false dir first.2 in
  errors first.1 = 0%nat →
  saved second.1 = 0%nat ∧ second.2 = first.2.
Proof. exact (second_import_idempotent_without_errors input_file dir store). Qed.

Lemma repeated_import_saves_nothing_witness :
  let dir := Samples.corpus_dir [Samples.heals_en; Samples.heals_en] in
  let first := import_to_postgres ALL_QUOTES_json false dir Samples.empty_store in
  let second := import_to_postgres ALL_QUOTES_json false dir first.2 in
  errors first.1 = 0%nat ∧ saved second.1 = 0%nat ∧ second.2 = first.2.
Proof.
  intros dir first second.
  assert (He : errors first.1 = 0%nat) by (vm_compute; reflexivity).
  split; [exact He|].
  exact (repeated_import_saves_nothing ALL_QUOTES_json dir Samples.empty_store He).
Defined.

Lemma succ_mod_100 (n : nat) :
  (S n mod 100 ≠ 0 → S n mod 100 = S (n mod 100))%nat.
Proof.
  intros Hne.
  pose proof (Nat.div_mod_eq n 100) as Hn.
  pose proof (Nat.mod_upper_bound n 100 ltac:(lia)) as Hb.
  pose proof (Nat.div_mod_eq (S n) 100) as Hs.
  pose proof (Nat.mod_upper_bound (S n) 100 ltac:(lia)) as Hsb.
  lia.
Qed.

Section ImportGrowth.
Context `{Unicode}.

Lemma import_quote_growth (n0 : nat) (st : import_stats * connection) (q : quote) :
  growth n0 st → growth n0 (import_quote st q).
Proof.
  destruct st as [s c]. unfold growth, uncommitted, import_quote.
  cbn [fst snd].
  intros (Hcc & Hu & Hup & Hlow).
  pose proof (Nat.mod_upper_bound (saved s) 100 ltac:(lia)) as Hb.
  destruct (import_body c q) as [| |c'] eqn:Hb';
    cbn [fst snd saved errors current committed rollback].
  - split_and!; lia.
  - split_and!; lia.
  - apply import_body_inserted in Hb' as (t0 & _ & Hins).
    apply insert_quotation_spec in Hins as (r & -> & _).
    assert (Hlen : length (current c ++ [r]) = S (length (current c)))
      by (rewrite length_app; simpl; lia).
    destruct (S (saved s) mod 100 =? 0)%nat eqn:Hm;
      cbn [fst snd saved errors current committed commit]; rewrite ?Hlen.
    + split_and!; lia.
    + apply Nat.eqb_neq in Hm. rewrite (succ_mod_100 _ Hm). split_and!; lia.
Qed.

Lemma import_loop_growth (n0 : nat) (qs : list quote) (st : import_stats * connection) :
  growth n0 st → growth n0 (foldl import_quote st qs).
Proof.
  revert st. induction qs as [|q qs IH]; intros st Hg; cbn [foldl]; [done|].
  by apply IH, import_quote_growth.
Qed.

End ImportGrowth.

(** X17.  How the table grows.  When the importer reads its corpus and
    opens its connection, the table ends with at most [saved] rows more
    than it began with (none, when it was cleared first), and each error
    costs at most 99 of them: the rows saved since the last commit, which
    the rollback discards.  Without errors the table grows by exactly
    [saved] rows. *)
Theorem table_growth_is_bounded_by_saved `{Unicode} (input_file : text) (clear : bool)
    (dir : filesystem) (store : database) (qs : list quote) :
  lookup_file input_file dir = Some (Json qs) →
  is_Some (get_db_connection store) →
  let r := import_to_postgres input_file clear dir store in
  let n0 := if clear then 0%nat else length (table store) in
  (length (table r.2) ≤ n0 + saved r.1
   ∧ n0 + saved r.1 ≤ length (table r.2) + 99 * errors r.1)%nat.
Proof.
  intros Hfile [c0 Hc]. unfold import_to_postgres. rewrite Hfile, Hc.
  unfold get_db_connection in Hc.
  destruct (negb (db_url_set store)); [done|].
  destruct (negb (reachable store)); [done|]. injection Hc as <-.
  unfold import_quotes.
  set (c1 := if clear then _ else _).
  set (s1 := {| loaded := length qs; saved := 0; skipped := 0; errors := 0 |}).
  set (n0 := if clear then 0%nat else length (table store)).
  assert (Hg1 : growth n0 (s1, c1)).
  { subst c1 n0 s1. unfold growth, uncommitted.
    destruct clear; cbn [fst snd saved errors current committed commit length];
      rewrite Nat.Div0.mod_0_l; split_and!; lia. }
  pose proof (import_loop_growth n0 qs (s1, c1) Hg1) as Hg.
  destruct (foldl import_quote (s1, c1) qs) as [s c].
  destruct Hg as (_ & _ & Hup & Hlow).
  cbn [fst snd saved errors current committed commit table] in *. split; lia.
Qed.

Lemma table_growth_is_bounded_by_saved_witness :
  let r := import_to_postgres ALL_QUOTES_json false
             (Samples.corpus_dir [Samples.ice; Samples.long_author])
             Samples.empty_store in
  (0 + saved r.1 ≤ length (table r.2) + 99 * errors r.1)%nat.
Proof.
  intros r.
  refine (proj2 (table_growth_is_bounded_by_saved ALL_QUOTES_json false
                   (Samples.corpus_dir [Samples.ice; Samples.long_author])
                   Samples.empty_store [Samples.ice; Samples.long_author]
                   eq_refl _)).
  eexists. reflexivity.
Defined.
(** ** More on the harvesters *)

Section HarvesterMore.
Context `{Unicode}.

Lemma get_with_fallback_requests {page : Type} (net : network page) (n : nat)
    (url : text) :
  (n < (get_with_fallback net n url).2 ≤ n + 2)%nat.
Proof. unfold get_with_fallback. destruct (net n url true); simpl; lia. Qed.

Lemma try_urls_requests (net : network CitatyNet.page) (n : nat) (urls : list text) :
  ((CitatyNet.try_urls net n urls).2 ≤ n + 2 * length urls)%nat.
Proof.
  revert n. induction urls as [|url urls IH]; intros n; simpl; [lia|].
  pose proof (get_with_fallback_requests net n url) as Hg.
  destruct (get_with_fallback net n url) as [r n']. simpl in Hg.
  pose proof (IH n') as IH'.
  destruct r as [| |status body]; try lia.
  destruct (status =? 404)%Z; [lia|].
  destruct (is_http_error status); [lia|].
  destruct body; simpl; lia.
Qed.

(** What the page loop of harvest_citaty_net collects and how many
    requests it makes. *)
Lemma pages_loop_facts (net : network CitatyNet.page) (pages : list Z) (n : nat)
    (quotes : list quote) (lg : list harvest_log) (P : quote → Prop) :
  (∀ q, q ∈ quotes → P q) →
  (∀ elements q, q ∈ CitatyNet.page_quotes elements → P q) →
  let r := CitatyNet.pages_loop net pages n quotes lg in
  (∀ q, q ∈ r.1.1 → P q) ∧ (r.2 ≤ n + 6 * length pages)%nat.
Proof.
  intros Hq Hpage. revert n quotes Hq.
  induction pages as [|p pages IH]; intros n quotes Hq;
    cbn [CitatyNet.pages_loop length].
  - split; [exact Hq|simpl; lia].
  - pose proof (try_urls_requests net n (CitatyNet.url_patterns p)) as Ht.
    assert (Hlen : length (CitatyNet.url_patterns p) = 3%nat) by done.
    rewrite Hlen in Ht.
    destruct (CitatyNet.try_urls net n (CitatyNet.url_patterns p)) as [[elements|] n'];
      cbn [fst snd] in *.
    + destruct (IH n' (quotes ++ CitatyNet.page_quotes elements)) as [HP Hn].
      { intros q [?|?]%elem_of_app; [by apply Hq|by eapply Hpage]. }
      split; [exact HP|lia].
    + split; [exact Hq|lia].
Qed.

Lemma harvest_author_facts (net : network WikiquoteRu.page) (a : text)
    (st : list quote * list harvest_log * nat) (P : quote → Prop) :
  (∀ q, q ∈ st.1.1 → P q) →
  (∀ body q, q ∈ WikiquoteRu.page_quotes a body → P q) →
  let r := WikiquoteRu.harvest_author net st a in
  (∀ q, q ∈ r.1.1 → P q) ∧ (r.2 ≤ st.2 + 3)%nat.
Proof.
  destruct st as [[quotes lg] n]. simpl. intros Hq Hpage.
  unfold WikiquoteRu.harvest_author.
  pose proof (get_with_fallback_requests net n (WikiquoteRu.author_url a)) as Hg.
  destruct (get_with_fallback net n (WikiquoteRu.author_url a)) as [r n1].
  simpl in Hg.
  assert (Hadd : ∀ body q, q ∈ quotes ++ WikiquoteRu.page_quotes a body → P q).
  { intros body q [?|?]%elem_of_app; [by apply Hq|by eapply Hpage]. }
  destruct r as [| |status body]; simpl; try (split; [done|lia]).
  destruct (status =? 404)%Z; simpl; [split; [done|lia]|].
  destruct (status =? 403)%Z.
  - destruct (net n1 (WikiquoteRu.author_url a) false) as [| |status2 body2];
      simpl; try (split; [done|lia]).
    destruct (status2 =? 403)%Z; simpl; [split; [done|lia]|].
    destruct (is_http_error status2); simpl; (split; [eauto|lia]).
  - destruct (is_http_error status); simpl; (split; [eauto|lia]).
Qed.

Lemma harvest_authors_facts (net : network WikiquoteRu.page) (authors : list text)
    (st : list quote * list harvest_log * nat) (P : quote → Prop) :
  (∀ q, q ∈ st.1.1 → P q) →
  (∀ a body q, a ∈ authors → q ∈ WikiquoteRu.page_quotes a body → P q) →
  let r := foldl (WikiquoteRu.harvest_author net) st authors in
  (∀ q, q ∈ r.1.1 → P q) ∧ (r.2 ≤ st.2 + 3 * length authors)%nat.
Proof.
  revert st. induction authors as [|a authors IH]; intros st Hq Hpage; cbn [foldl length].
  - split; [done|lia].
  - destruct (harvest_author_facts net a st P Hq) as [Hq1 Hn1].
    { intros body q. apply Hpage. by apply elem_of_cons; left. }
    destruct (IH (WikiquoteRu.harvest_author net st a) Hq1) as [Hq2 Hn2].
    { intros a' body q Ha'. apply Hpage. by apply elem_of_cons; right. }
    split; [done|]. cbv zeta in *. lia.
Qed.

Lemma save_and_return_list (quotes : list quote) (output_file : text)
    (dir : filesystem) (lg : list harvest_log) (n : nat) (qs : list quote) :
  returned (save_and_return quotes output_file dir lg n) = Some qs → qs = quotes.
Proof.
  unfold save_and_return. destruct quotes as [|q quotes]; [by intros [= <-]|].
  destruct (write_file _ _ dir); simpl; [by intros [= <-]|done].
Qed.

End HarvesterMore.

(** X18.  Whatever the network answers, every record harvest_citaty_net
    returns is tagged with the source citaty_net and the language ru, has a
    text of at least 20 characters with a Cyrillic letter that passes the
    harvester's validator, and has an author that is a string or null. *)
Theorem citaty_net_records_are_tagged_and_valid `{Unicode}
    (net : network CitatyNet.page) (max_pages : Z) (output_file : text)
    (dir : filesystem) (qs : list quote) (q : quote) :
  returned (CitatyNet.harvest_citaty_net net max_pages output_file dir) = Some qs →
  q ∈ qs →
  q_source q = JStr (lit "citaty_net")
  ∧ q_lang q = JStr (lit "ru")
  ∧ q_author q ≠ JAbsent
  ∧ ∃ t, q_text q = JStr t ∧ (20 ≤ length t)%nat
         ∧ is_valid_quotation_ru t = true
         ∧ re_search false cyrillic_letter t = true.
Proof.
  set (P := fun q : quote =>
    q_source q = JStr (lit "citaty_net") ∧ q_lang q = JStr (lit "ru")
    ∧ q_author q ≠ JAbsent
    ∧ ∃ t, q_text q = JStr t ∧ (20 ≤ length t)%nat
           ∧ is_valid_quotation_ru t = true
           ∧ re_search false cyrillic_letter t = true).
  intros Hret Hq. change (P q).
  unfold CitatyNet.harvest_citaty_net in Hret.
  destruct (pages_loop_facts net (CitatyNet.page_numbers max_pages) 0 [] [] P) as [HP _].
  { intros x Hx. by apply elem_of_nil in Hx. }
  { intros elements x (e & He & Hx)%list_elem_of_omap.
    destruct (re_search false cyrillic_letter (CitatyNet.el_text e)) eqn:Hcyr; [|done].
    destruct (20 <=? length (CitatyNet.el_text e))%nat eqn:Hlen; [|done].
    destruct (is_valid_quotation_ru (CitatyNet.el_text e)) eqn:Hv; [|done].
    simpl in Hx. injection Hx as <-. unfold P. simpl.
    split_and!; [done|done|by destruct (CitatyNet.el_author e)|].
    exists (CitatyNet.el_text e). split_and!; [done|by apply Nat.leb_le|done|done]. }
  destruct (CitatyNet.pages_loop _ _ _ _ _) as [[quotes lg] n].
  apply save_and_return_list in Hret as ->. by apply HP.
Qed.

Lemma citaty_net_records_are_tagged_and_valid_witness :
  let net : network CitatyNet.page := fun n _ _ =>
    if (n <? 1)%nat
    then Response 200 [ {| CitatyNet.el_text :=
                             [1041; 1077; 1079; 32; 1090; 1088; 1091; 1076; 1072; 32;
                              1085; 1077; 32; 1074; 1099; 1090; 1072; 1097; 1080; 1096;
                              1100; 32; 1080; 32; 1088; 1099; 1073; 1082; 1091; 32;
                              1080; 1079; 32; 1087; 1088; 1091; 1076; 1072; 46];
                           CitatyNet.el_author := None |} ]
    else RequestError in
  ∃ q, returned (CitatyNet.harvest_citaty_net net 3 (lit "citaty_net.json")
                   Samples.empty_dir) = Some [q]
       ∧ q_source q = JStr (lit "citaty_net").
Proof.
  intros net. eexists.
  assert (Hret : returned (CitatyNet.harvest_citaty_net net 3 (lit "citaty_net.json")
                             Samples.empty_dir) = Some [_])
    by (vm_compute; reflexivity).
  split; [exact Hret|].
  refine (proj1 (citaty_net_records_are_tagged_and_valid net 3 (lit "citaty_net.json")
                   Samples.empty_dir _ _ Hret _)).
  apply list_elem_of_here.
Defined.

(** X19.  Whatever the network answers, every record harvest_wikiquote_ru
    returns is tagged with the source wikiquote_ru and the language ru,
    names as its author one of the authors asked for, and has a text of at
    least 40 characters with a Cyrillic letter that passes the harvester's
    validator. *)
Theorem wikiquote_records_are_tagged_and_valid `{Unicode}
    (net : network WikiquoteRu.page) (authors : option (list text))
    (output_file : text) (dir : filesystem) (qs : list quote) (q : quote) :
  returned (WikiquoteRu.harvest_wikiquote_ru net authors output_file dir) = Some qs →
  q ∈ qs →
  q_source q = JStr (lit "wikiquote_ru")
  ∧ q_lang q = JStr (lit "ru")
  ∧ (∃ a, q_author q = JStr a ∧ a ∈ default WikiquoteRu.default_authors authors)
  ∧ ∃ t, q_text q = JStr t ∧ (40 ≤ length t)%nat
         ∧ is_valid_quotation_ru t = true
         ∧ re_search false cyrillic_letter t = true.
Proof.
  set (P := fun q : quote =>
    q_source q = JStr (lit "wikiquote_ru") ∧ q_lang q = JStr (lit "ru")
    ∧ (∃ a, q_author q = JStr a ∧ a ∈ default WikiquoteRu.default_authors authors)
    ∧ ∃ t, q_text q = JStr t ∧ (40 ≤ length t)%nat
           ∧ is_valid_quotation_ru t = true
           ∧ re_search false cyrillic_letter t = true).
  intros Hret Hq. change (P q).
  unfold WikiquoteRu.harvest_wikiquote_ru in Hret.
  destruct (harvest_authors_facts net (default WikiquoteRu.default_authors authors)
              ([], [], 0%nat) P) as [HP _].
  { intros x Hx. by apply elem_of_nil in Hx. }
  { intros a body x Ha Hx. unfold WikiquoteRu.page_quotes in Hx.
    apply elem_of_app in Hx as [(t & Ht & Hx)%list_elem_of_omap
                               |(t & Ht & Hx)%list_elem_of_omap].
    - destruct (WikiquoteRu.is_navigation t); [done|].
      destruct (length t <? 40)%nat eqn:Hlen; [done|].
      destruct (re_search false cyrillic_letter t) eqn:Hcyr; [|done].
      destruct (is_valid_quotation_ru t) eqn:Hv; [|done].
      simpl in Hx. injection Hx as <-. unfold P. simpl.
      split_and!; [done|done|by exists a|].
      exists t. split_and!; [done|by apply Nat.ltb_ge|done|done].
    - destruct (40 <=? length t)%nat eqn:Hlen; [|done].
      destruct (re_search false cyrillic_letter t) eqn:Hcyr; [|done].
      destruct (is_valid_quotation_ru t) eqn:Hv; [|done].
      simpl in Hx. injection Hx as <-. unfold P. simpl.
      split_and!; [done|done|by exists a|].
      exists t. split_and!; [done|by apply Nat.leb_le|done|done]. }
  destruct (foldl _ _ _) as [[quotes lg] n].
  apply save_and_return_list in Hret as ->. by apply HP.
Qed.

Lemma wikiquote_records_are_tagged_and_valid_witness :
  let t := [1041; 1077; 1079; 32; 1090; 1088; 1091; 1076; 1072; 32;
            1085; 1077; 32; 1074; 1099; 1090; 1072; 1097; 1080; 1096;
            1100; 32; 1080; 32; 1088; 1099; 1073; 1082; 1091; 32;
            1080; 1079; 32; 1087; 1088; 1091; 1076; 1072; 44; 32;
            1076; 1088; 1091; 1079; 1100; 1103; 46] in
  let net : network WikiquoteRu.page := fun _ _ _ =>
    Response 200 {| WikiquoteRu.quote_elements := [t]; WikiquoteRu.quote_divs := [] |} in
  ∃ q, returned (WikiquoteRu.harvest_wikiquote_ru net (Some [Samples.plato])
                   (lit "wikiquote_ru.json") Samples.empty_dir) = Some [q]
       ∧ q_lang q = JStr (lit "ru").
Proof.
  intros t net. eexists.
  assert (Hret : returned (WikiquoteRu.harvest_wikiquote_ru net (Some [Samples.plato])
                             (lit "wikiquote_ru.json") Samples.empty_dir) = Some [_])
    by (vm_compute; reflexivity).
  split; [exact Hret|].
  refine (proj1 (proj2 (wikiquote_records_are_tagged_and_valid net (Some [Samples.plato])
                   (lit "wikiquote_ru.json") Samples.empty_dir _ _ Hret _))).
  apply list_elem_of_here.
Defined.

(** X20.  The harvesters' load on a source is bounded: harvest_citaty_net
    makes at most six requests per page asked for (three variants, each
    possibly repeated without certificate verification), and
    harvest_wikiquote_ru at most three per author. *)
Theorem harvesters_make_bounded_requests `{Unicode}
    (net_c : network CitatyNet.page) (net_w : network WikiquoteRu.page)
    (max_pages : Z) (authors : option (list text)) (output_file : text)
    (dir : filesystem) :
  (requests_made (CitatyNet.harvest_citaty_net net_c max_pages output_file dir)
     ≤ 6 * Z.to_nat max_pages)%nat
  ∧ (requests_made (WikiquoteRu.harvest_wikiquote_ru net_w authors output_file dir)
       ≤ 3 * length (default WikiquoteRu.default_authors authors))%nat.
Proof.
  split.
  - unfold CitatyNet.harvest_citaty_net.
    destruct (pages_loop_facts net_c (CitatyNet.page_numbers max_pages) 0 [] []
                (fun _ => True)) as [_ Hn]; [done|done|].
    unfold CitatyNet.page_numbers in Hn. rewrite length_fmap, length_seq in Hn.
    destruct (CitatyNet.pages_loop _ _ _ _ _) as [[quotes lg] n]. simpl in Hn.
    unfold save_and_return. destruct quotes; simpl; [lia|].
    destruct (write_file _ _ _); simpl; lia.
  - unfold WikiquoteRu.harvest_wikiquote_ru.
    destruct (harvest_authors_facts net_w (default WikiquoteRu.default_authors authors)
                ([], [], 0%nat) (fun _ => True)) as [_ Hn]; [done|done|].
    destruct (foldl _ _ _) as [[quotes lg] n]. simpl in Hn.
    unfold save_and_return. destruct quotes; simpl; [lia|].
    destruct (write_file _ _ _); simpl; lia.
Qed.


(** ** Error behaviour of the merger and the orchestrator *)

Section MergeErrors.
Context `{Unicode}.

Lemma merge_records_cut (l1 l2 : list quote) (q : quote) (st : merge_state) :
  get_text q = None →
  merge_records (l1 ++ q :: l2) st = merge_records l1 st.
Proof.
  intros Hq. revert st. induction l1 as [|x l1 IH]; intros st; simpl.
  - unfold merge_step, merge_key. by rewrite Hq.
  - destruct (merge_step st x); [apply IH|done].
Qed.

End MergeErrors.

(** X22.  A record whose text is null ends the reading of its file: the
    records before it in the file are merged, the records after it are not
    read, and the files that follow are merged as usual.  A file that
    cannot be read at all is passed over in the same way. *)
Theorem null_text_cuts_the_file_short `{Unicode} (before after : list file_content)
    (l1 l2 : list quote) (q : quote) :
  get_text q = None →
  merged (before ++ Json (l1 ++ q :: l2) :: after) = merged (before ++ Json l1 :: after)
  ∧ merged (before ++ Unreadable :: after) = merged (before ++ after).
Proof.
  intros Hq. unfold merged. rewrite !foldl_app. simpl.
  by rewrite (merge_records_cut l1 l2 q _ Hq).
Qed.

Lemma null_text_cuts_the_file_short_witness :
  let null := {| q_text := JNull; q_author := JNull; q_source := JAbsent;
                 q_lang := JAbsent |} in
  merged ([] ++ Json ([Samples.heals_en] ++ null :: [Samples.ice]) :: [])
  = merged ([] ++ Json [Samples.heals_en] :: []).
Proof.
  intros null.
  exact (proj1 (null_text_cuts_the_file_short [] [] [Samples.heals_en] [Samples.ice]
                  null eq_refl)).
Defined.

Lemma is_prefix_app (n s : text) : is_prefix n (n ++ s) = true.
Proof.
  induction n as [|c n IH]; simpl; [done|]. by rewrite N.eqb_refl, IH.
Qed.

Lemma contains_prefix (needle hay : text) :
  is_prefix needle hay = true → contains needle hay = true.
Proof. intros Hp. destruct hay; simpl; by rewrite Hp. Qed.

Lemma contains_middle (needle a b : text) : contains needle (a ++ needle ++ b) = true.
Proof.
  induction a as [|c a IH].
  - rewrite app_nil_l. apply contains_prefix, is_prefix_app.
  - simpl. rewrite IH. apply orb_true_r.
Qed.

(** X23.  A failing script is acceptable as soon as one of the listed
    signatures occurs anywhere in its output, in any letter case.  (Here
    lower-casing works character by character, so that it distributes over
    concatenation.) *)
Theorem acceptable_signature_anywhere `{Unicode} (err s a b : text) :
  (∀ x y, str_lower (x ++ y) = str_lower x ++ str_lower y) →
  err ∈ acceptable_errors →
  str_lower s = str_lower err →
  is_harvest_error_acceptable (a ++ s ++ b) = true.
Proof.
  intros Hdist Herr Hs. unfold is_harvest_error_acceptable.
  apply existsb_exists. exists err. split; [by apply list_elem_of_In|].
  rewrite !Hdist, Hs. apply contains_middle.
Qed.

Lemma acceptable_signature_anywhere_witness :
  is_harvest_error_acceptable
    (lit "requests.exceptions." ++ lit "CONNECTIONERROR" ++ lit ": host unreachable") = true.
Proof.
  apply (acceptable_signature_anywhere (lit "ConnectionError")).
  - intros x y. apply map_app.
  - unfold acceptable_errors. do 2 apply list_elem_of_further. apply list_elem_of_here.
  - reflexivity.
Defined.

(** X24.  A run that includes the import stage and ends with exit code 0
    has reached the store: DB_URL was set, the server accepted the
    connection, the corpus file ALL_QUOTES.json existed and held a JSON
    corpus, and the importer saved or skipped at least one record. *)
Theorem success_means_the_store_was_reached `{Unicode} (extract_quotes_count : text → Z)
    (p : pipeline) (scripts : list script) (dir : filesystem) (store : database) :
  stats_only p = false → skip_import p = false →
  let r := main extract_quotes_count p scripts dir store in
  r.1 = 0%Z →
  db_url_set store = true ∧ reachable store = true
  ∧ (∃ qs, lookup_file ALL_QUOTES_json (fs r.2) = Some (Json qs))
  ∧ (0 < saved (st_import (stats r.2)) + skipped (st_import (stats r.2)))%nat.
Proof.
  intros Hso Hsi. unfold main, run. rewrite Hso.
  set (s1 := after_harvest extract_quotes_count p scripts (start dir store)).
  destruct (after_harvest_facts extract_quotes_count p scripts (start dir store))
    as (Hdb1 & _). fold s1 in Hdb1. simpl in Hdb1.
  destruct (run_merge_stage_facts p s1) as (Hdb2 & _).
  destruct (run_merge_stage p s1) as [[] s2]; cbn [fst snd negb] in *; [|done].
  unfold run_import_stage. rewrite Hsi. cbn [logged fs db].
  destruct (lookup_file ALL_QUOTES_json (fs s2)) as [c|] eqn:Hl; [|done].
  unfold import_to_postgres. rewrite Hl, Hdb2, Hdb1.
  destruct c as [|qs|]; try done.
  unfold get_db_connection.
  destruct (db_url_set store); [|done].
  destruct (reachable store); [|done]. cbn [negb].
  destruct (import_quotes (clear_db p) qs _) as [st c]. cbn [fst snd].
  destruct (bool_decide (0 < saved st)%nat || bool_decide (0 < skipped st)%nat) eqn:Hok;
    [|done].
  intros _. cbn [negb fst snd fs stats st_import logged].
  split_and!; [done|done|by exists qs|].
  apply orb_true_iff in Hok as [Hok|Hok]; apply bool_decide_eq_true in Hok; lia.
Qed.

Lemma success_means_the_store_was_reached_witness :
  let r := main Samples.no_count Samples.all_stages [Samples.script_ok]
             Samples.empty_dir Samples.empty_store in
  r.1 = 0%Z ∧ db_url_set Samples.empty_store = true.
Proof.
  intros r.
  assert (Hexit : r.1 = 0%Z) by (vm_compute; reflexivity).
  split; [exact Hexit|].
  exact (proj1 (success_means_the_store_was_reached Samples.no_count Samples.all_stages
                  [Samples.script_ok] Samples.empty_dir Samples.empty_store
                  eq_refl eq_refl Hexit)).
Defined.
